(** * COMP767 HW03: the Baird counterexample (HW03Q01.py) and the
      policy-gradient harness (HW03Q02.py)

    A shallow embedding of the two training engines.  numpy and torch
    floating-point numbers are idealised as real numbers: rounding, overflow,
    underflow and nan have no counterpart, so a statement below is about the
    exact values of the formulas the code evaluates.  The random number
    generators, the gym environment and the optimiser are collaborators of
    the code and appear as section variables; numpy's generator is also
    given concretely, for the runs that [main] of HW03Q01.py makes. *)

From Stdlib Require Import String.
From Stdlib Require Import Reals Lra Lia ZArith QArith Qreals Bool Arith List.
Import ListNotations.

Open Scope R_scope.

(** ** numpy-style helpers on rows and tables *)

Module Np.

(** Elementwise product, sum, scaling and addition of one-dimensional
    arrays. *)
Fixpoint vmul (u v : list R) : list R :=
  match u, v with
  | x :: u', y :: v' => x * y :: vmul u' v'
  | _, _ => []
  end.

Fixpoint vadd (u v : list R) : list R :=
  match u, v with
  | x :: u', y :: v' => x + y :: vadd u' v'
  | _, _ => []
  end.

Definition vscale (c : R) (v : list R) : list R := map (Rmult c) v.

Definition vsum (v : list R) : R := fold_right Rplus 0 v.

(** [a[i]] for a possibly negative index: numpy counts negative indices
    from the end and raises IndexError outside [-len, len). *)
Definition index (len : nat) (i : Z) : option nat :=
  if (0 <=? i)%Z
  then (if (i <? Z.of_nat len)%Z then Some (Z.to_nat i) else None)
  else (if (- Z.of_nat len <=? i)%Z then Some (Z.to_nat (Z.of_nat len + i)) else None).

(** Replace position [i] of a list (the list is unchanged when [i] is out
    of range; callers check the range first). *)
Fixpoint set_nth {A} (i : nat) (x : A) (l : list A) : list A :=
  match l, i with
  | [], _ => []
  | _ :: t, O => x :: t
  | h :: t, S j => h :: set_nth j x t
  end.

(** [a[i, j]] on a table of rows. *)
Definition get2 {A} (a : list (list A)) (i j : Z) : option A :=
  match index (length a) i with
  | None => None
  | Some i' =>
      match nth_error a i' with
      | None => None
      | Some row =>
          match index (length row) j with
          | None => None
          | Some j' => nth_error row j'
          end
      end
  end.

(** [a[i, j] = x]. *)
Definition set2 {A} (a : list (list A)) (i j : Z) (x : A) : option (list (list A)) :=
  match index (length a) i with
  | None => None
  | Some i' =>
      match nth_error a i' with
      | None => None
      | Some row =>
          match index (length row) j with
          | None => None
          | Some j' => Some (set_nth i' (set_nth j' x row) a)
          end
      end
  end.

(** [np.zeros((n, m))]. *)
Definition zeros2 (n m : nat) : list (list R) := repeat (repeat 0 m) n.

(** Overwrite the entries of [old] from position [k] on with [new]. *)
Definition overwrite {A} (k : nat) (new old : list A) : list A :=
  firstn k old ++ new ++ skipn (k + length new) old.

(** *** Facts about indexing *)

Lemma index_nat (len i : nat) :
  (i < len)%nat -> index len (Z.of_nat i) = Some i.
Proof.
  intros H. unfold index.
  destruct (Z.leb_spec 0 (Z.of_nat i)); [| lia].
  destruct (Z.ltb_spec (Z.of_nat i) (Z.of_nat len)); [| lia].
  now rewrite Nat2Z.id.
Qed.

Lemma index_pred (len i : nat) :
  (i < len)%nat -> index len (Z.of_nat (S i) - 1) = Some i.
Proof.
  intros H. replace (Z.of_nat (S i) - 1)%Z with (Z.of_nat i) by lia.
  now apply index_nat.
Qed.

Lemma index_range (len : nat) (i : Z) (k : nat) :
  index len i = Some k -> (k < len)%nat.
Proof.
  unfold index.
  destruct (Z.leb_spec 0 i).
  - destruct (Z.ltb_spec i (Z.of_nat len)); [| discriminate].
    intros [= <-]. lia.
  - destruct (Z.leb_spec (- Z.of_nat len) i); [| discriminate].
    intros [= <-]. lia.
Qed.

Lemma set_nth_length {A} (i : nat) (x : A) (l : list A) :
  length (set_nth i x l) = length l.
Proof.
  revert i; induction l as [| h t IH]; intros [| j]; simpl; auto.
Qed.

Lemma nth_error_set_nth_eq {A} (i : nat) (x : A) (l : list A) :
  (i < length l)%nat -> nth_error (set_nth i x l) i = Some x.
Proof.
  revert i; induction l as [| h t IH]; intros [| j] H; simpl in *; try lia; auto.
  apply IH; lia.
Qed.

Lemma nth_error_set_nth_neq {A} (i j : nat) (x : A) (l : list A) :
  i <> j -> nth_error (set_nth i x l) j = nth_error l j.
Proof.
  revert i j; induction l as [| h t IH]; intros [| i] [| j] H; simpl; auto.
  contradiction.
Qed.

Lemma set_nth_twice {A} (i : nat) (x y : A) (l : list A) :
  set_nth i x (set_nth i y l) = set_nth i x l.
Proof.
  revert i; induction l as [| h t IH]; intros [| j]; simpl; auto.
  now rewrite IH.
Qed.

Lemma set_nth_same {A} (i : nat) (x : A) (l : list A) :
  nth_error l i = Some x -> set_nth i x l = l.
Proof.
  revert i; induction l as [| h t IH]; intros [| j]; simpl; auto.
  - now intros [= ->].
  - intros H. now rewrite IH.
Qed.

Lemma get2_nat {A} (a : list (list A)) (i j : nat) (row : list A) :
  nth_error a i = Some row -> (j < length row)%nat ->
  get2 a (Z.of_nat i) (Z.of_nat j) = nth_error row j.
Proof.
  intros Hi Hj. unfold get2.
  assert (i < length a)%nat by (apply nth_error_Some; congruence).
  rewrite index_nat, Hi, index_nat; auto.
Qed.

Lemma set2_nat {A} (a : list (list A)) (i j : nat) (row : list A) (x : A) :
  nth_error a i = Some row -> (j < length row)%nat ->
  set2 a (Z.of_nat i) (Z.of_nat j) x = Some (set_nth i (set_nth j x row) a).
Proof.
  intros Hi Hj. unfold set2.
  assert (i < length a)%nat by (apply nth_error_Some; congruence).
  rewrite index_nat, Hi, index_nat; auto.
Qed.

Lemma overwrite_nil {A} (k : nat) (l : list A) : overwrite k [] l = l.
Proof.
  unfold overwrite. simpl. rewrite Nat.add_0_r. apply firstn_skipn.
Qed.

Lemma overwrite_cons {A} (k : nat) (x : A) (new l : list A) :
  (k < length l)%nat ->
  overwrite (S k) new (set_nth k x l) = overwrite k (x :: new) l.
Proof.
  unfold overwrite. revert k.
  induction l as [| h t IH]; intros [| k] H; simpl in *; try lia.
  - reflexivity.
  - f_equal. apply IH. lia.
Qed.

Lemma overwrite_all {A} (x : A) (new l : list A) :
  length l = S (length new) -> nth_error l 0 = Some x ->
  overwrite 1 new l = x :: new.
Proof.
  intros Hlen Hx. unfold overwrite.
  destruct l as [| h t]; [discriminate |].
  injection Hx as ->. simpl in *.
  rewrite skipn_all2 by lia. now rewrite app_nil_r.
Qed.

Lemma overwrite_length {A} (k : nat) (new l : list A) :
  (k + length new <= length l)%nat -> length (overwrite k new l) = length l.
Proof.
  intros H. unfold overwrite.
  rewrite !length_app, length_firstn, length_skipn. lia.
Qed.

Lemma nth_error_overwrite {A} (k j : nat) (new l : list A) :
  (k <= length l)%nat -> nth_error (overwrite k new l) (k + j) =
  if (j <? length new)%nat then nth_error new j else nth_error l (k + j).
Proof.
  intros H. unfold overwrite.
  rewrite nth_error_app2; rewrite length_firstn; [| lia].
  replace (k + j - Nat.min k (length l))%nat with j by lia.
  destruct (Nat.ltb_spec j (length new)).
  - now apply nth_error_app1.
  - rewrite nth_error_app2 by lia. rewrite nth_error_skipn. f_equal. lia.
Qed.

Lemma firstn_overwrite {A} (k : nat) (new l : list A) :
  (k <= length l)%nat -> firstn k (overwrite k new l) = firstn k l.
Proof.
  intros H. unfold overwrite.
  rewrite firstn_app, length_firstn.
  replace (k - Nat.min k (length l))%nat with 0%nat by lia.
  rewrite firstn_firstn, Nat.min_id. simpl. apply app_nil_r.
Qed.

(** *** Facts about row arithmetic *)

Lemma vadd_length (u v : list R) :
  length u = length v -> length (vadd u v) = length u.
Proof.
  revert v; induction u as [| x u IH]; intros [| y v] H; simpl in *; try lia; auto.
Qed.

Lemma vscale_length (c : R) (v : list R) : length (vscale c v) = length v.
Proof. apply length_map. Qed.

Lemma vadd_vscale_0 (c : R) (u v : list R) :
  c = 0 -> length u = length v -> vadd u (vscale c v) = u.
Proof.
  intros ->. revert v; induction u as [| x u IH]; intros [| y v] H; simpl in *;
    try lia; auto.
  f_equal; [lra | apply IH; lia].
Qed.

(** *** Maxima and sums of exponentials *)

(** [max(x)] on a vector and [vector.max()]: both raise ValueError on an
    empty vector. *)
Definition amax (v : list R) : option R :=
  match v with
  | [] => None
  | h :: t => Some (fold_left Rmax t h)
  end.

Lemma fold_left_Rmax (t : list R) :
  forall h,
  h <= fold_left Rmax t h /\
  Forall (fun x => x <= fold_left Rmax t h) t /\
  (fold_left Rmax t h = h \/ In (fold_left Rmax t h) t).
Proof.
  induction t as [| x t IH]; intros h; cbn [fold_left].
  - split; [lra | split; [constructor | now left]].
  - destruct (IH (Rmax h x)) as (H1 & H2 & H3).
    pose proof (Rmax_l h x). pose proof (Rmax_r h x).
    split; [lra | split].
    + constructor; [lra | exact H2].
    + destruct H3 as [H3 | H3].
      * rewrite H3. unfold Rmax. destruct (Rle_dec h x); [right; now left | now left].
      * right. now right.
Qed.

Lemma amax_spec (v : list R) (m : R) :
  amax v = Some m -> In m v /\ Forall (fun x => x <= m) v.
Proof.
  destruct v as [| h t]; [discriminate |]. intros [= <-].
  destruct (fold_left_Rmax t h) as (H1 & H2 & H3). split.
  - destruct H3 as [-> | H3]; [now left | now right].
  - now constructor.
Qed.

Lemma amax_some (v : list R) : v <> [] -> exists m, amax v = Some m.
Proof. destruct v; [contradiction | eexists; reflexivity]. Qed.

Lemma vsum_map_div {A} (f : A -> R) (d : R) (l : list A) :
  vsum (map (fun v => f v / d) l) = vsum (map f l) / d.
Proof.
  unfold vsum. induction l as [| x l IH]; cbn [map fold_right]; [lra |].
  rewrite IH. lra.
Qed.

Lemma vsum_map_scale {A} (f : A -> R) (c : R) (l : list A) :
  vsum (map (fun v => c * f v) l) = c * vsum (map f l).
Proof.
  unfold vsum. induction l as [| x l IH]; cbn [map fold_right]; [lra |].
  rewrite IH. lra.
Qed.

Lemma vsum_exp_nonneg (z : list R) : 0 <= vsum (map exp z).
Proof.
  unfold vsum. induction z as [| x z IH]; cbn [map fold_right]; [lra |].
  pose proof (exp_pos x). lra.
Qed.

Lemma vsum_exp_pos (z : list R) : z <> [] -> 0 < vsum (map exp z).
Proof.
  destruct z as [| x z]; [contradiction |]. intros _.
  pose proof (vsum_exp_nonneg z) as H. pose proof (exp_pos x).
  unfold vsum in *. cbn [map fold_right]. lra.
Qed.

Lemma vsum_exp_ge (z : list R) (x : R) : In x z -> exp x <= vsum (map exp z).
Proof.
  induction z as [| y z IH]; intros H; [contradiction |].
  pose proof (vsum_exp_nonneg z) as Hz. pose proof (exp_pos y).
  unfold vsum in *. cbn [map fold_right].
  destruct H as [-> | H]; [lra | specialize (IH H); lra].
Qed.

Lemma vsum_exp_le_max (z : list R) (m : R) :
  Forall (fun v => v <= m) z -> vsum (map exp z) <= INR (length z) * exp m.
Proof.
  induction 1 as [| v z Hv Hz IH].
  - cbn. lra.
  - change (vsum (map exp (v :: z))) with (exp v + vsum (map exp z)).
    change (length (v :: z)) with (S (length z)). rewrite S_INR.
    assert (exp v <= exp m).
    { destruct Hv as [Hlt | ->]; [left; now apply exp_increasing | lra]. }
    lra.
Qed.

(** The shares [exp x / sum (exp z)] of a non-empty vector sum to 1, lie in
    (0, 1], and do not change when a constant is added to every entry. *)
Lemma exp_share_sum (z : list R) :
  z <> [] -> vsum (map (fun x => exp x / vsum (map exp z)) z) = 1.
Proof.
  intros H. pose proof (vsum_exp_pos z H).
  rewrite (vsum_map_div exp). field. lra.
Qed.

Lemma exp_share_bounds (z : list R) :
  Forall (fun q => 0 < q <= 1) (map (fun x => exp x / vsum (map exp z)) z).
Proof.
  apply Forall_forall. intros q Hq. apply in_map_iff in Hq.
  destruct Hq as (x & <- & Hx).
  assert (Hne : z <> []) by (intros ->; contradiction).
  pose proof (vsum_exp_pos z Hne) as Hs. pose proof (vsum_exp_ge z x Hx) as Hle.
  pose proof (exp_pos x) as He. split.
  - apply Rdiv_lt_0_compat; assumption.
  - apply (Rmult_le_reg_r (vsum (map exp z))); [assumption |].
    unfold Rdiv. rewrite Rmult_assoc, Rinv_l by lra. lra.
Qed.

Lemma exp_share_shift (c : R) (z : list R) :
  map (fun x => exp x / vsum (map exp (map (fun v => v + c) z))) (map (fun v => v + c) z) =
  map (fun x => exp x / vsum (map exp z)) z.
Proof.
  destruct z as [| y z']; [reflexivity |].
  set (z := y :: z').
  assert (Hs : 0 < vsum (map exp z)) by (apply vsum_exp_pos; discriminate).
  assert (E : vsum (map exp (map (fun v => v + c) z)) = exp c * vsum (map exp z)).
  { rewrite map_map, <- vsum_map_scale. f_equal. apply map_ext.
    intros x. rewrite exp_plus. ring. }
  rewrite E, map_map. apply map_ext. intros x.
  pose proof (exp_pos c). rewrite exp_plus. field. lra.
Qed.

Lemma vadd_length_min (u v : list R) :
  length (vadd u v) = Nat.min (length u) (length v).
Proof.
  revert v; induction u as [| x u IH]; intros [| y v]; simpl; auto.
Qed.

(** *** Statistics along the first axis *)

Fixpoint vsub (u v : list R) : list R :=
  match u, v with
  | x :: u', y :: v' => x - y :: vsub u' v'
  | _, _ => []
  end.

(** [data[:, j]] of a table of rows. *)
Definition column (data : list (list R)) (j : nat) : list R :=
  map (fun row => nth j row 0) data.

(** [np.average(data, axis=0)] and [np.std(data, axis=0)] (the population
    standard deviation) of a table of shape (trials, timesteps). *)
Definition average0 (data : list (list R)) : list R :=
  map (fun j => vsum (column data j) / INR (length data))
      (seq 0 (length (hd [] data))).

Definition std0 (data : list (list R)) : list R :=
  map (fun j =>
         let c := column data j in
         let mu := vsum c / INR (length data) in
         sqrt (vsum (map (fun x => (x - mu) * (x - mu)) c) / INR (length data)))
      (seq 0 (length (hd [] data))).

Lemma vsub_length (u v : list R) :
  length u = length v -> length (vsub u v) = length u.
Proof.
  revert v; induction u as [| x u IH]; intros [| y v] H; simpl in *; try lia; auto.
Qed.

Lemma nth_vadd (j : nat) (u v : list R) :
  (j < length u)%nat -> (j < length v)%nat ->
  nth j (vadd u v) 0 = nth j u 0 + nth j v 0.
Proof.
  revert j v; induction u as [| x u IH]; intros j [| y v] Hu Hv; simpl in *; try lia.
  destruct j as [| j]; [reflexivity | apply IH; lia].
Qed.

Lemma nth_vsub (j : nat) (u v : list R) :
  (j < length u)%nat -> (j < length v)%nat ->
  nth j (vsub u v) 0 = nth j u 0 - nth j v 0.
Proof.
  revert j v; induction u as [| x u IH]; intros j [| y v] Hu Hv; simpl in *; try lia.
  destruct j as [| j]; [reflexivity | apply IH; lia].
Qed.

Lemma nth_vscale (j : nat) (c : R) (v : list R) :
  (j < length v)%nat -> nth j (vscale c v) 0 = c * nth j v 0.
Proof.
  revert j; induction v as [| x v IH]; intros j H; simpl in *; [lia |].
  destruct j as [| j]; [reflexivity | apply IH; lia].
Qed.

Lemma nth_map_seq (f : nat -> R) (j n : nat) :
  (j < n)%nat -> nth j (map f (seq 0 n)) 0 = f j.
Proof.
  intros H. rewrite (nth_indep _ 0 (f 0%nat)) by (now rewrite length_map, length_seq).
  rewrite map_nth, seq_nth by exact H. reflexivity.
Qed.

Lemma vsum_const (v : R) (c : list R) :
  Forall (fun x => x = v) c -> vsum c = INR (length c) * v.
Proof.
  unfold vsum. induction 1 as [| x c Hx Hc IH]; [simpl; lra |].
  cbn [fold_right length]. rewrite IH, S_INR, Hx. lra.
Qed.

End Np.

(** ** HW03Q01.py: semi-gradient TD(0) on Baird's counterexample *)

Module HW03Q01.
Import Np.

(** The feature table built by [__init__]: [np.zeros((7,8))] followed by
    the fourteen assignments, in the source's order. *)
Definition assign (i j : nat) (x : R) (f : list (list R)) : list (list R) :=
  match set2 f (Z.of_nat i) (Z.of_nat j) x with
  | Some f' => f'
  | None => f
  end.

Definition features_init : list (list R) :=
  assign 6 7 2 (assign 6 6 1
 (assign 5 7 1 (assign 5 5 2
 (assign 4 7 1 (assign 4 4 2
 (assign 3 7 1 (assign 3 3 2
 (assign 2 7 1 (assign 2 2 2
 (assign 1 7 1 (assign 1 1 2
 (assign 0 7 1 (assign 0 0 2 (zeros2 7 8)))))))))))))).

(** [np.array([1,1,1,1,1,1,10,1])]. *)
Definition w_init : list R := [1; 1; 1; 1; 1; 1; 10; 1].

(** The agent object.  [ws] has shape (nb_runs, steps+1, 8). *)
Record agent := mkAgent {
  alpha : R;
  steps : nat;             (* args.steps *)
  gamma : R;
  nb_runs : nat;
  ws : list (list (list R));
  features : list (list R);
  current_state : option nat
}.

Definition with_ws (a : agent) (w : list (list (list R))) : agent :=
  mkAgent (alpha a) (steps a) (gamma a) (nb_runs a) w (features a) (current_state a).

Definition with_state (a : agent) (s : option nat) : agent :=
  mkAgent (alpha a) (steps a) (gamma a) (nb_runs a) (ws a) (features a) s.

(** [self.ws[run] = np.array([...])]: the row vector is broadcast over
    every snapshot of the run. *)
Definition broadcast_run (v : list R) (run : nat) (w : list (list (list R))) :=
  match nth_error w run with
  | Some snaps => set_nth run (map (fun _ => v) snaps) w
  | None => w
  end.

Definition init (alpha_ : R) (steps_ : nat) (nb_runs_ : nat) (gamma_ : R) : agent :=
  let ws0 := repeat (zeros2 (steps_ + 1) 8) nb_runs_ in
  let ws1 := fold_left (fun w run => broadcast_run w_init run w) (seq 0 (length ws0)) ws0 in
  mkAgent alpha_ steps_ gamma_ nb_runs_ ws1 features_init None.

Section Random.
(** The process-wide numpy generator: [np.random.seed] and the raw
    output behind [np.random.choice]. *)
Variable rng : Type.
Variable np_seed : Z -> rng.
Variable np_next : rng -> nat * rng.

(** [np.random.choice(n)]: an index below [n]. *)
Definition np_choice (n : nat) (g : rng) : nat * rng :=
  let (x, g') := np_next g in (x mod n, g')%nat.

(** Module-level state: the seed counter and the generator. *)
Record globals := mkGlobals { seed_count : Z; np_state : rng }.

(** The TD error and the ratio of one step. *)
Definition td_delta (a : agent) (f_old f_new w : list R) : R :=
  gamma a * vsum (vmul f_new w) - vsum (vmul f_old w).

Definition td_ratio (new_state : nat) : R :=
  7 * (if (new_state =? 6)%nat then 1 else 0).

Definition semi_gradient_one_step (a : agent) (g : rng) (run_id step : nat)
  : option (agent * rng) :=
  match current_state a with
  | None => None
  | Some old_state =>
      let (new_state, g') := np_choice 7 g in
      match get2 (ws a) (Z.of_nat run_id) (Z.of_nat step - 1),
            nth_error (features a) new_state,
            nth_error (features a) old_state with
      | Some w, Some f_new, Some f_old =>
          let delta := td_delta a f_old f_new w in
          let ratio := td_ratio new_state in
          match set2 (ws a) (Z.of_nat run_id) (Z.of_nat step)
                     (vadd w (vscale (alpha a * ratio * delta) f_old)) with
          | Some ws' => Some (with_state (with_ws a ws') (Some new_state), g')
          | None => None
          end
      | _, _, _ => None
      end
  end.

(** [for step in range(1, self.args.steps+1)]. *)
Fixpoint steps_from (a : agent) (g : rng) (run_id : nat) (step n : nat)
  : option (agent * rng) :=
  match n with
  | O => Some (a, g)
  | S n' =>
      match semi_gradient_one_step a g run_id step with
      | Some (a', g') => steps_from a' g' run_id (S step) n'
      | None => None
      end
  end.

Definition semi_gradient_one_run (a : agent) (g : rng) (run_id : nat) :=
  steps_from a g run_id 1 (steps a).

(** [for run_id in range(0, self.nb_runs)]. *)
Fixpoint runs_from (a : agent) (gl : globals) (run_id n : nat)
  : option (agent * globals) :=
  match n with
  | O => Some (a, gl)
  | S n' =>
      let g0 := np_seed (seed_count gl) in
      let count' := (seed_count gl + 1)%Z in
      let (s0, g1) := np_choice 7 g0 in
      match semi_gradient_one_run (with_state a (Some s0)) g1 run_id with
      | Some (a', g2) => runs_from a' (mkGlobals count' g2) (S run_id) n'
      | None => None
      end
  end.

Definition train_all_runs (a : agent) (gl : globals) : option (agent * globals) :=
  runs_from a gl 0 (nb_runs a).

(** *** The update as a function of the weights *)

(** Row [s] of the feature table. *)
Definition F (s : nat) : list R := nth s features_init [].

(** The snapshot stored by one step from state [s] to state [s']. *)
Definition td_update (al ga : R) (s s' : nat) (w : list R) : list R :=
  vadd w (vscale (al * td_ratio s' * (ga * vsum (vmul (F s') w) - vsum (vmul (F s) w))) (F s)).

(** The snapshots and the last state of [n] successive
    steps that start in state [s] with last snapshot [w]. *)
Fixpoint snapshots (al ga : R) (s : nat) (w : list R) (g : rng) (n : nat) : list (list R) :=
  match n with
  | O => []
  | S n' =>
      let (s', g') := np_choice 7 g in
      let w' := td_update al ga s s' w in
      w' :: snapshots al ga s' w' g' n'
  end.

Fixpoint after_steps (s : nat) (g : rng) (n : nat) : nat * rng :=
  match n with
  | O => (s, g)
  | S n' => let (s', g') := np_choice 7 g in after_steps s' g' n'
  end.

(** The snapshot series of a run seeded with [seed]. *)
Definition run_series (al ga : R) (n : nat) (seed : Z) : list (list R) :=
  let (s0, g1) := np_choice 7 (np_seed seed) in
  w_init :: snapshots al ga s0 w_init g1 n.

(** The agent's tensor has shape (nb_runs, steps+1, 8) and its feature
    table is the one of [__init__]. *)
Definition shaped (a : agent) : Prop :=
  features a = features_init /\
  length (ws a) = nb_runs a /\
  Forall (fun snaps => length snaps = S (steps a) /\
                       Forall (fun w => length w = 8%nat) snaps) (ws a).

(** A snapshot of the tensor, [ws[run, k]]. *)
Definition snapshot (a : agent) (run k : nat) : option (list R) :=
  get2 (ws a) (Z.of_nat run) (Z.of_nat k).

(** The number of coordinates whose magnitude is strictly larger in [w']
    than in [w]. *)
Definition grown (w w' : list R) (i : nat) : bool :=
  if Rlt_dec (Rabs (nth i w 0)) (Rabs (nth i w' 0)) then true else false.

Definition count_grown (w w' : list R) : nat :=
  length (filter (grown w w') (seq 0 8)).

(** *** Basic facts *)

Lemma features_table :
  features_init =
  [ [2; 0; 0; 0; 0; 0; 0; 1];
    [0; 2; 0; 0; 0; 0; 0; 1];
    [0; 0; 2; 0; 0; 0; 0; 1];
    [0; 0; 0; 2; 0; 0; 0; 1];
    [0; 0; 0; 0; 2; 0; 0; 1];
    [0; 0; 0; 0; 0; 2; 0; 1];
    [0; 0; 0; 0; 0; 0; 1; 2] ].
Proof. reflexivity. Qed.

Lemma F_row (s : nat) : (s < 7)%nat -> nth_error features_init s = Some (F s).
Proof.
  intros H. unfold F. apply nth_error_nth'. rewrite features_table. simpl. lia.
Qed.

Lemma F_length (s : nat) : (s < 7)%nat -> length (F s) = 8%nat.
Proof.
  intros H. unfold F. rewrite features_table.
  do 7 (destruct s as [| s]; [reflexivity |]). lia.
Qed.

Lemma np_choice_lt (g : rng) : (fst (np_choice 7 g) < 7)%nat.
Proof.
  unfold np_choice. destruct (np_next g) as [x g'].
  cbv [fst]. apply Nat.mod_upper_bound. discriminate.
Qed.

Lemma td_update_length (al ga : R) (s s' : nat) (w : list R) :
  (s < 7)%nat -> length w = 8%nat -> length (td_update al ga s s' w) = 8%nat.
Proof.
  intros Hs Hw. unfold td_update.
  rewrite vadd_length; [assumption |].
  rewrite vscale_length, F_length; assumption.
Qed.

Lemma td_update_noop (al ga : R) (s s' : nat) (w : list R) :
  (s < 7)%nat -> length w = 8%nat -> s' <> 6%nat -> td_update al ga s s' w = w.
Proof.
  intros Hs Hw Hn. unfold td_update. apply vadd_vscale_0.
  - unfold td_ratio. destruct (Nat.eqb_spec s' 6); [contradiction | lra].
  - now rewrite F_length.
Qed.

Lemma one_step_eq (a : agent) (g : rng) (r k s : nat) (snaps : list (list R)) (w : list R) :
  features a = features_init ->
  current_state a = Some s -> (s < 7)%nat ->
  nth_error (ws a) r = Some snaps ->
  nth_error snaps k = Some w -> (S k < length snaps)%nat ->
  semi_gradient_one_step a g r (S k) =
  Some (with_state
          (with_ws a (set_nth r (set_nth (S k)
                        (td_update (alpha a) (gamma a) s (fst (np_choice 7 g)) w) snaps) (ws a)))
          (Some (fst (np_choice 7 g))),
        snd (np_choice 7 g)).
Proof.
  intros Hf Hc Hs Hr Hk Hlen.
  unfold semi_gradient_one_step. rewrite Hc.
  pose proof (np_choice_lt g) as Hlt.
  destruct (np_choice 7 g) as [s' g'] eqn:E. cbv [fst snd] in *.
  assert (Hget : get2 (ws a) (Z.of_nat r) (Z.of_nat (S k) - 1) = Some w).
  { replace (Z.of_nat (S k) - 1)%Z with (Z.of_nat k) by lia.
    rewrite (get2_nat _ _ _ _ Hr); [assumption | lia]. }
  rewrite Hget, Hf, (F_row s' Hlt), (F_row s Hs).
  rewrite (set2_nat _ _ _ _ _ Hr Hlen).
  reflexivity.
Qed.

Lemma snapshots_length (al ga : R) (n : nat) :
  forall s w g, length (snapshots al ga s w g n) = n.
Proof.
  induction n as [| n IH]; intros s w g; simpl; [reflexivity |].
  destruct (np_choice 7 g) as [s' g']. simpl. now rewrite IH.
Qed.

Lemma snapshots_shape (al ga : R) (n : nat) :
  forall s w g, (s < 7)%nat -> length w = 8%nat ->
  Forall (fun v => length v = 8%nat) (snapshots al ga s w g n).
Proof.
  induction n as [| n IH]; intros s w g Hs Hw; simpl; [constructor |].
  pose proof (np_choice_lt g) as Hlt.
  destruct (np_choice 7 g) as [s' g']. cbv [fst] in Hlt.
  constructor.
  - now apply td_update_length.
  - apply IH; [assumption | now apply td_update_length].
Qed.

Lemma steps_from_eq (n : nat) :
  forall (a : agent) (g : rng) (r k s : nat) (snaps : list (list R)) (w : list R),
  features a = features_init ->
  current_state a = Some s -> (s < 7)%nat ->
  nth_error (ws a) r = Some snaps ->
  nth_error snaps k = Some w -> length w = 8%nat ->
  (k + n < length snaps)%nat ->
  steps_from a g r (S k) n =
  Some (with_state
          (with_ws a (set_nth r (overwrite (S k) (snapshots (alpha a) (gamma a) s w g n) snaps)
                                (ws a)))
          (Some (fst (after_steps s g n))),
        snd (after_steps s g n)).
Proof.
  induction n as [| n IH]; intros a g r k s snaps w Hf Hc Hs Hr Hk Hw Hlen.
  - simpl. rewrite overwrite_nil, (set_nth_same _ _ _ Hr).
    destruct a; simpl in *. now subst.
  - assert (Hr' : (r < length (ws a))%nat) by (apply nth_error_Some; congruence).
    cbn [steps_from].
    rewrite (one_step_eq a g r k s snaps w Hf Hc Hs Hr Hk) by lia.
    pose proof (np_choice_lt g) as Hlt.
    cbn [snapshots after_steps].
    destruct (np_choice 7 g) as [s' g']. cbv [fst snd] in *.
    set (w1 := td_update (alpha a) (gamma a) s s' w).
    rewrite (IH _ g' r (S k) s' (set_nth (S k) w1 snaps) w1).
    + unfold with_state, with_ws. cbn [alpha steps gamma nb_runs ws features current_state].
      rewrite set_nth_twice, overwrite_cons by lia. reflexivity.
    + exact Hf.
    + reflexivity.
    + exact Hlt.
    + cbn [with_state with_ws ws]. now apply nth_error_set_nth_eq.
    + apply nth_error_set_nth_eq. lia.
    + now apply td_update_length.
    + rewrite set_nth_length. lia.
Qed.

Lemma one_run_eq (a : agent) (g : rng) (r s : nat) (snaps : list (list R)) (w : list R) :
  features a = features_init ->
  current_state a = Some s -> (s < 7)%nat ->
  nth_error (ws a) r = Some snaps ->
  nth_error snaps 0 = Some w -> length w = 8%nat ->
  length snaps = S (steps a) ->
  semi_gradient_one_run a g r =
  Some (with_state
          (with_ws a (set_nth r (w :: snapshots (alpha a) (gamma a) s w g (steps a)) (ws a)))
          (Some (fst (after_steps s g (steps a)))),
        snd (after_steps s g (steps a))).
Proof.
  intros Hf Hc Hs Hr H0 Hw Hlen. unfold semi_gradient_one_run.
  rewrite (steps_from_eq (steps a) a g r 0 s snaps w) by (auto; lia).
  rewrite (overwrite_all w); auto.
  now rewrite snapshots_length.
Qed.

(** The series of [n] consecutive runs, the first seeded with [seed]. *)
Fixpoint series_from (al ga : R) (m : nat) (seed : Z) (n : nat) : list (list (list R)) :=
  match n with
  | O => []
  | S n' => run_series al ga m seed :: series_from al ga m (seed + 1)%Z n'
  end.

Lemma series_from_length (al ga : R) (m : nat) (n : nat) :
  forall seed, length (series_from al ga m seed n) = n.
Proof. induction n as [| n IH]; intros seed; simpl; auto. Qed.

Lemma nth_error_series_from (al ga : R) (m : nat) (n : nat) :
  forall seed r, (r < n)%nat ->
  nth_error (series_from al ga m seed n) r = Some (run_series al ga m (seed + Z.of_nat r)%Z).
Proof.
  induction n as [| n IH]; intros seed r H; [lia |].
  destruct r as [| r]; simpl nth_error.
  - now rewrite Z.add_0_r.
  - rewrite IH by lia. do 2 f_equal. lia.
Qed.

Lemma firstn_series_from (al ga : R) (m : nat) (k : nat) :
  forall seed n, (k <= n)%nat ->
  firstn k (series_from al ga m seed n) = series_from al ga m seed k.
Proof.
  induction k as [| k IH]; intros seed n H; [reflexivity |].
  destruct n as [| n]; [lia |]. simpl. f_equal. apply IH. lia.
Qed.

Lemma runs_from_eq (n : nat) :
  forall (a : agent) (gl : globals) (r : nat),
  features a = features_init ->
  (forall j, (j < n)%nat -> nth_error (ws a) (r + j) = Some (repeat w_init (S (steps a)))) ->
  exists st g,
    runs_from a gl r n =
    Some (with_state
            (with_ws a (overwrite r (series_from (alpha a) (gamma a) (steps a) (seed_count gl) n)
                                  (ws a)))
            st,
          mkGlobals (seed_count gl + Z.of_nat n) g) /\
    (n = 0%nat -> st = current_state a /\ g = np_state gl).
Proof.
  induction n as [| n IH]; intros a gl r Hf Hrows.
  - exists (current_state a), (np_state gl). split; [| auto].
    simpl. rewrite overwrite_nil, Z.add_0_r.
    destruct a, gl; reflexivity.
  - cbn [runs_from series_from]. unfold run_series.
    pose proof (np_choice_lt (np_seed (seed_count gl))) as Hlt.
    destruct (np_choice 7 (np_seed (seed_count gl))) as [s0 g1]. cbv [fst] in Hlt.
    assert (Hr : nth_error (ws a) r = Some (repeat w_init (S (steps a)))).
    { rewrite <- (Hrows 0%nat) by lia. f_equal. lia. }
    assert (Hr' : (r < length (ws a))%nat) by (apply nth_error_Some; congruence).
    rewrite (one_run_eq (with_state a (Some s0)) g1 r s0
               (repeat w_init (S (steps a))) w_init); auto;
      [| now rewrite repeat_length].
    cbn [with_state alpha gamma steps ws].
    set (row := w_init :: snapshots (alpha a) (gamma a) s0 w_init g1 (steps a)).
    set (a1 := with_state _ _).
    destruct (IH a1 (mkGlobals (seed_count gl + 1)
                       (snd (after_steps s0 g1 (steps a)))) (S r)) as (st & g & E & _).
    + exact Hf.
    + intros j Hj. unfold a1. cbn [with_state with_ws ws steps].
      rewrite nth_error_set_nth_neq by lia.
      rewrite <- (Hrows (S j)) by lia. f_equal. lia.
    + exists st, g. split; [| discriminate].
      rewrite E. unfold a1, with_state, with_ws.
      cbn [alpha steps gamma nb_runs ws features current_state seed_count].
      rewrite overwrite_cons by lia.
      do 3 f_equal. lia.
Qed.

Lemma broadcast_all (v : list R) (l2 : list (list (list R))) :
  forall l1,
  fold_left (fun w run => broadcast_run v run w) (seq (length l1) (length l2)) (l1 ++ l2) =
  l1 ++ map (map (fun _ => v)) l2.
Proof.
  induction l2 as [| x l2 IH]; intros l1; [reflexivity |].
  cbn [length seq fold_left map].
  assert (E : broadcast_run v (length l1) (l1 ++ x :: l2) =
              (l1 ++ [map (fun _ => v) x]) ++ l2).
  { unfold broadcast_run. rewrite nth_error_app2, Nat.sub_diag by lia. simpl.
    rewrite <- app_assoc. simpl.
    clear. induction l1 as [| h t IHt]; simpl; [reflexivity | now rewrite IHt]. }
  rewrite E.
  replace (S (length l1)) with (length (l1 ++ [map (fun _ => v) x]))
    by (rewrite length_app; simpl; lia).
  rewrite IH, <- app_assoc. reflexivity.
Qed.

Lemma init_ws (al ga : R) (m k : nat) :
  ws (init al m k ga) = repeat (repeat w_init (S m)) k.
Proof.
  unfold init. cbn [ws].
  pose proof (broadcast_all w_init (repeat (zeros2 (m + 1) 8) k) []) as E.
  cbn [length app] in E. rewrite E. clear E. rewrite map_repeat. f_equal.
  unfold zeros2. rewrite map_repeat. f_equal. lia.
Qed.

Lemma init_shaped (al ga : R) (m k : nat) : shaped (init al m k ga).
Proof.
  unfold shaped. rewrite init_ws. repeat split.
  - apply repeat_length.
  - apply Forall_forall. intros x Hx. apply repeat_spec in Hx. subst x.
    split; [apply repeat_length |].
    apply Forall_forall. intros y Hy. apply repeat_spec in Hy. now subst y.
Qed.

(** [train_all_runs] on a fresh agent: run [r] stores the series of the
    seed [seed_count + r], and the counter has advanced by [nb_runs]. *)
Lemma train_all_runs_eq (al ga : R) (m k : nat) (gl : globals) :
  exists st g,
    train_all_runs (init al m k ga) gl =
    Some (with_state (with_ws (init al m k ga) (series_from al ga m (seed_count gl) k)) st,
          mkGlobals (seed_count gl + Z.of_nat k) g).
Proof.
  unfold train_all_runs.
  destruct (runs_from_eq k (init al m k ga) gl 0) as (st & g & E & _).
  - reflexivity.
  - intros j Hj. rewrite init_ws. cbn [steps init Nat.add].
    apply nth_error_repeat. exact Hj.
  - exists st, g. cbn [nb_runs init] in *. rewrite E.
    do 3 f_equal. rewrite init_ws. cbn [alpha gamma steps init].
    unfold overwrite. cbn [firstn app Nat.add].
    rewrite series_from_length, skipn_all2 by (rewrite repeat_length; lia).
    now rewrite app_nil_r.
Qed.

Lemma shaped_row (a : agent) (run : nat) :
  shaped a -> (run < nb_runs a)%nat ->
  exists snaps, nth_error (ws a) run = Some snaps /\ length snaps = S (steps a) /\
                Forall (fun w => length w = 8%nat) snaps.
Proof.
  intros (_ & Hlen & Hall) Hrun.
  destruct (nth_error (ws a) run) as [snaps |] eqn:E.
  - exists snaps. split; [reflexivity |].
    rewrite Forall_forall in Hall. apply Hall. eapply nth_error_In; eauto.
  - apply nth_error_None in E. lia.
Qed.

(** *** C2: the contract of one step *)

(** C2.  One call of [semi_gradient_one_step] in state [s], on a well-shaped
    agent and with indices in range, returns normally; with [w] the previous
    snapshot and [s'] the sampled state it stores
    [w + alpha * ratio * delta * F[s]] as snapshot [step], where
    [delta = gamma * (F[s'] . w) - (F[s] . w)] and [ratio] is 7 when [s' = 6]
    and 0 otherwise, and it makes [s'] the current state.  When [s'] is not 6
    the stored snapshot is [w] itself. *)
Theorem one_step_contract (a : agent) (g : rng) (run step s : nat) :
  shaped a -> current_state a = Some s -> (s < 7)%nat ->
  (run < nb_runs a)%nat -> (1 <= step <= steps a)%nat ->
  let s' := fst (np_choice 7 g) in
  exists w a',
    snapshot a run (step - 1) = Some w /\
    semi_gradient_one_step a g run step = Some (a', snd (np_choice 7 g)) /\
    let delta := gamma a * vsum (vmul (F s') w) - vsum (vmul (F s) w) in
    let ratio := if (s' =? 6)%nat then 7 else 0 in
    snapshot a' run step = Some (vadd w (vscale (alpha a * ratio * delta) (F s))) /\
    current_state a' = Some s' /\
    (s' <> 6%nat -> snapshot a' run step = Some w).
Proof.
  intros Hsh Hc Hs Hrun Hstep s'.
  destruct (shaped_row a run Hsh Hrun) as (snaps & Hr & Hlen & Hall).
  destruct step as [| k]; [lia |].
  replace (S k - 1)%nat with k by lia.
  destruct (nth_error snaps k) as [w |] eqn:Hk;
    [| apply nth_error_None in Hk; lia].
  assert (Hw : length w = 8%nat).
  { rewrite Forall_forall in Hall. apply Hall. eapply nth_error_In; eauto. }
  destruct Hsh as (Hf & _ & _).
  exists w. eexists. split; [| split].
  - unfold snapshot. rewrite (get2_nat _ _ _ _ Hr) by lia. exact Hk.
  - apply (one_step_eq a g run k s snaps w); auto. lia.
  - assert (Hsnap : forall v,
      snapshot (with_state (with_ws a (set_nth run (set_nth (S k) v snaps) (ws a)))
                           (Some s')) run (S k) = Some v).
    { intros v. unfold snapshot. cbn [with_state with_ws ws].
      assert (run < length (ws a))%nat by (apply nth_error_Some; congruence).
      rewrite (get2_nat _ _ _ (set_nth (S k) v snaps)).
      - apply nth_error_set_nth_eq. lia.
      - now apply nth_error_set_nth_eq.
      - rewrite set_nth_length. lia. }
    cbv zeta. split; [| split].
    + rewrite Hsnap. unfold td_update, td_ratio. do 3 f_equal.
      fold s'. destruct (s' =? 6)%nat; ring.
    + reflexivity.
    + intros Hne. rewrite Hsnap. f_equal. now apply td_update_noop.
Qed.

(** *** Growth of the weights along a run *)

Fixpoint final_weights (al ga : R) (s : nat) (w : list R) (g : rng) (n : nat) : list R :=
  match n with
  | O => w
  | S n' =>
      let (s', g') := np_choice 7 g in
      final_weights al ga s' (td_update al ga s s' w) g' n'
  end.

Lemma nth_error_snapshots (al ga : R) (n : nat) :
  forall s w g,
  nth_error (w :: snapshots al ga s w g n) n = Some (final_weights al ga s w g n).
Proof.
  induction n as [| n IH]; intros s w g; [reflexivity |].
  cbn [snapshots final_weights nth_error].
  destruct (np_choice 7 g) as [s' g']. apply IH.
Qed.

Lemma grown_true (w w' : list R) (i : nat) :
  Rabs (nth i w 0) < Rabs (nth i w' 0) -> grown w w' i = true.
Proof. intros H. unfold grown. now destruct (Rlt_dec _ _). Qed.

Lemma grown_false (w w' : list R) (i : nat) :
  ~ Rabs (nth i w 0) < Rabs (nth i w' 0) -> grown w w' i = false.
Proof. intros H. unfold grown. now destruct (Rlt_dec _ _). Qed.

(** *** C7: seeding of the runs *)

(** C7 (as amended, for the Baird harness).  [train_all_runs] on a fresh
    agent returns normally; run [r] stores the series of the seed
    [seed_count + r], whatever the generator's state at entry, and the
    counter ends at [seed_count + nb_runs].  So two trainings that start from
    the same counter value store the same tensor, and the tensor of [k] runs
    is the first [k] runs of the tensor of [k' >= k] runs. *)
Theorem train_all_runs_reproducible (al ga : R) (m k k' : nat) (gl1 gl2 : globals) :
  seed_count gl1 = seed_count gl2 -> (k <= k')%nat ->
  exists a1 gl1' a2 gl2' a3 gl3',
    train_all_runs (init al m k ga) gl1 = Some (a1, gl1') /\
    train_all_runs (init al m k ga) gl2 = Some (a2, gl2') /\
    train_all_runs (init al m k' ga) gl2 = Some (a3, gl3') /\
    ws a1 = ws a2 /\
    ws a1 = firstn k (ws a3) /\
    seed_count gl1' = (seed_count gl1 + Z.of_nat k)%Z /\
    (forall r, (r < k')%nat ->
       nth_error (ws a3) r = Some (run_series al ga m (seed_count gl2 + Z.of_nat r)%Z)).
Proof.
  intros Hseed Hk.
  destruct (train_all_runs_eq al ga m k gl1) as (st1 & g1 & E1).
  destruct (train_all_runs_eq al ga m k gl2) as (st2 & g2 & E2).
  destruct (train_all_runs_eq al ga m k' gl2) as (st3 & g3 & E3).
  do 6 eexists. split; [exact E1 | split; [exact E2 | split; [exact E3 |]]].
  cbn [with_state with_ws ws seed_count]. rewrite Hseed.
  split; [| split; [| split]].
  - reflexivity.
  - symmetry. now apply firstn_series_from.
  - reflexivity.
  - intros r Hr. now apply nth_error_series_from.
Qed.

Lemma run_series_shape (al ga : R) (m : nat) (seed : Z) :
  length (run_series al ga m seed) = S m /\
  Forall (fun w => length w = 8%nat) (run_series al ga m seed).
Proof.
  unfold run_series.
  pose proof (np_choice_lt (np_seed seed)) as Hlt.
  destruct (np_choice 7 (np_seed seed)) as [s0 g1]. cbv [fst] in Hlt.
  split.
  - cbn [length]. now rewrite snapshots_length.
  - constructor; [reflexivity | now apply snapshots_shape].
Qed.

(** The shape of the Baird tensor: training a fresh agent returns normally
    and leaves a tensor of [nb_runs] runs, each of [steps + 1] snapshots of
    8 weights. *)
Theorem train_all_runs_shape (al ga : R) (m k : nat) (gl : globals) :
  exists a' gl',
    train_all_runs (init al m k ga) gl = Some (a', gl') /\
    length (ws a') = k /\
    Forall (fun snaps => length snaps = S m /\
                         Forall (fun w => length w = 8%nat) snaps) (ws a').
Proof.
  destruct (train_all_runs_eq al ga m k gl) as (st & g & E).
  do 2 eexists. split; [exact E |].
  cbn [with_state with_ws ws]. split; [apply series_from_length |].
  clear E. generalize (seed_count gl).
  induction k as [| k IH]; intros seed; cbn [series_from].
  - constructor.
  - constructor; [apply run_series_shape | apply IH].
Qed.

(** *** The helper [random_argmax] *)

(** [np.where(vector == m)[0]]: the positions that hold [m]. *)
Definition where_eq (vector : list R) (m : R) : list nat :=
  filter (fun i => if Req_dec_T (nth i vector 0) m then true else false)
         (seq 0 (length vector)).

(** [np.random.choice(a)] on an array of positions: one of its entries;
    ValueError when [a] is empty. *)
Definition choice_of (a : list nat) (g : rng) : option (nat * rng) :=
  match a with
  | [] => None
  | _ => let (k, g') := np_choice (length a) g in Some (nth k a 0%nat, g')
  end.

Definition random_argmax (vector : list R) (g : rng) : option (nat * rng) :=
  match amax vector with
  | None => None
  | Some m => choice_of (where_eq vector m) g
  end.

Lemma np_choice_below (n : nat) (g : rng) :
  (0 < n)%nat -> (fst (np_choice n g) < n)%nat.
Proof.
  intros H. unfold np_choice. destruct (np_next g) as [x g'].
  cbv [fst]. apply Nat.mod_upper_bound. lia.
Qed.

Lemma where_eq_In (vector : list R) (m : R) (i : nat) :
  In i (where_eq vector m) <-> (i < length vector)%nat /\ nth i vector 0 = m.
Proof.
  unfold where_eq. rewrite filter_In, in_seq.
  destruct (Req_dec_T (nth i vector 0) m) as [E | E]; split; intros [H1 H2];
    try discriminate; try contradiction; split; auto; lia.
Qed.

Lemma choice_of_In (a : list nat) (g : rng) :
  a <> [] -> exists i g', choice_of a g = Some (i, g') /\ In i a.
Proof.
  destruct a as [| x a']; [contradiction |]. intros _. unfold choice_of.
  pose proof (np_choice_below (length (x :: a')) g) as H.
  destruct (np_choice (length (x :: a')) g) as [k g']. cbv [fst] in H.
  exists (nth k (x :: a') 0%nat), g'. split; [reflexivity |].
  apply nth_In. apply H. simpl. lia.
Qed.

(** [random_argmax] on a non-empty vector returns a position of the vector
    that holds its maximum; when the maximum is attained at one position
    only, that position is returned whatever the generator draws.  On the
    empty vector it raises. *)
Theorem random_argmax_attains_max (vector : list R) (g : rng) :
  vector <> [] ->
  random_argmax [] g = None /\
  exists i g',
    random_argmax vector g = Some (i, g') /\
    (i < length vector)%nat /\
    (forall j, (j < length vector)%nat -> nth j vector 0 <= nth i vector 0) /\
    ((forall j, (j < length vector)%nat -> j <> i -> nth j vector 0 < nth i vector 0) ->
     forall h, exists h', random_argmax vector h = Some (i, h')).
Proof.
  intros Hne. split; [reflexivity |].
  destruct (amax_some vector Hne) as [m Hm].
  destruct (amax_spec vector m Hm) as [Hin Hall].
  assert (Hw : where_eq vector m <> []).
  { destruct (In_nth vector m 0 Hin) as (i0 & Hi0 & E). intros Hnil.
    assert (H : In i0 (where_eq vector m)) by (apply where_eq_In; auto).
    rewrite Hnil in H. contradiction. }
  destruct (choice_of_In _ g Hw) as (i & g' & Hc & Hi).
  apply where_eq_In in Hi. destruct Hi as [Hlt Hv].
  exists i, g'. unfold random_argmax. rewrite Hm.
  split; [exact Hc | split; [exact Hlt | split]].
  - intros j Hj. rewrite Hv. rewrite Forall_forall in Hall.
    apply Hall. now apply nth_In.
  - intros Huniq h.
    destruct (choice_of_In _ h Hw) as (i2 & h' & Hc2 & Hi2).
    apply where_eq_In in Hi2. destruct Hi2 as [Hlt2 Hv2].
    exists h'. rewrite Hc2.
    destruct (Nat.eq_dec i2 i) as [-> | Hd]; [reflexivity |].
    specialize (Huniq i2 Hlt2 Hd). lra.
Qed.

(** *** What one step leaves alone *)

Lemma index_of_nat (len i : nat) :
  index len (Z.of_nat i) = if (i <? len)%nat then Some i else None.
Proof.
  unfold index. destruct (Z.leb_spec 0 (Z.of_nat i)); [| lia].
  destruct (Nat.ltb_spec i len), (Z.ltb_spec (Z.of_nat i) (Z.of_nat len)); try lia.
  - now rewrite Nat2Z.id.
  - reflexivity.
Qed.

Lemma get2_set_other {A} (a : list (list A)) (r k r' k' : nat) (row : list A) (x : A) :
  nth_error a r = Some row -> (r', k') <> (r, k) ->
  get2 (set_nth r (set_nth k x row) a) (Z.of_nat r') (Z.of_nat k') =
  get2 a (Z.of_nat r') (Z.of_nat k').
Proof.
  intros Hr Hne. unfold get2. rewrite set_nth_length, index_of_nat.
  destruct (Nat.ltb_spec r' (length a)); [| reflexivity].
  destruct (Nat.eq_dec r' r) as [-> | Hd].
  - rewrite nth_error_set_nth_eq by assumption. rewrite Hr.
    rewrite set_nth_length, index_of_nat.
    destruct (k' <? length row)%nat; [| reflexivity].
    apply nth_error_set_nth_neq. intros ->. now apply Hne.
  - rewrite nth_error_set_nth_neq by auto. reflexivity.
Qed.

Lemma Forall_set_nth {A} (P : A -> Prop) (i : nat) (x : A) (l : list A) :
  Forall P l -> P x -> Forall P (set_nth i x l).
Proof.
  intros Hl Hx. revert i. induction Hl as [| h t Hh Ht IH]; intros [| i];
    simpl; constructor; auto.
Qed.

Lemma td_update_frame (al ga : R) (s s' : nat) (w : list R) (i : nat) :
  (s < 7)%nat -> length w = 8%nat -> i <> s -> i <> 7%nat ->
  nth i (td_update al ga s s' w) 0 = nth i w 0.
Proof.
  intros Hs Hw His Hi7. unfold td_update.
  generalize (al * td_ratio s' * (ga * vsum (vmul (F s') w) - vsum (vmul (F s) w))).
  intros c.
  destruct w as [| a0 [| a1 [| a2 [| a3 [| a4 [| a5 [| a6 [| a7 [| ? ?]]]]]]]]];
    try discriminate.
  unfold F. rewrite features_table.
  destruct s as [| [| [| [| [| [| [| s]]]]]]]; try lia;
    cbn [nth vadd vscale map];
    (do 8 (destruct i as [| i];
           [cbn [nth]; try (exfalso; apply His; reflexivity);
            try (exfalso; apply Hi7; reflexivity); ring |]);
     destruct i; reflexivity).
Qed.

(** One step writes one snapshot and, in it, at most two coordinates.  On a
    well-shaped agent in state [s], with indices in range, the stored
    snapshot agrees with the previous one in every coordinate other than [s]
    and 7 (the two features of state [s]); every other entry of the tensor
    is as before; and the agent is still well shaped. *)
Theorem one_step_frame (a : agent) (g : rng) (run step s : nat) :
  shaped a -> current_state a = Some s -> (s < 7)%nat ->
  (run < nb_runs a)%nat -> (1 <= step <= steps a)%nat ->
  exists w w' a',
    snapshot a run (step - 1) = Some w /\
    semi_gradient_one_step a g run step = Some (a', snd (np_choice 7 g)) /\
    snapshot a' run step = Some w' /\
    (forall i, i <> s -> i <> 7%nat -> nth i w' 0 = nth i w 0) /\
    (forall r k, (r, k) <> (run, step) -> snapshot a' r k = snapshot a r k) /\
    shaped a'.
Proof.
  intros Hsh Hc Hs Hrun Hstep.
  destruct (shaped_row a run Hsh Hrun) as (snaps & Hr & Hlen & Hall).
  destruct step as [| k]; [lia |].
  replace (S k - 1)%nat with k by lia.
  destruct (nth_error snaps k) as [w |] eqn:Hk;
    [| apply nth_error_None in Hk; lia].
  assert (Hw : length w = 8%nat).
  { rewrite Forall_forall in Hall. apply Hall. eapply nth_error_In; eauto. }
  destruct Hsh as (Hf & Hruns & Hrows).
  assert (Hrun' : (run < length (ws a))%nat) by (apply nth_error_Some; congruence).
  set (w' := td_update (alpha a) (gamma a) s (fst (np_choice 7 g)) w).
  exists w, w'. eexists. split; [| split; [| split; [| split; [| split]]]].
  - unfold snapshot. rewrite (get2_nat _ _ _ _ Hr) by lia. exact Hk.
  - apply (one_step_eq a g run k s snaps w); auto. lia.
  - unfold snapshot. cbn [with_state with_ws ws].
    rewrite (get2_nat _ _ _ (set_nth (S k) w' snaps)).
    + apply nth_error_set_nth_eq. lia.
    + now apply nth_error_set_nth_eq.
    + rewrite set_nth_length. lia.
  - intros i His Hi7. now apply td_update_frame.
  - intros r j Hne. unfold snapshot. cbn [with_state with_ws ws].
    now apply get2_set_other.
  - unfold shaped. cbn [with_state with_ws ws features nb_runs steps].
    split; [exact Hf | split; [now rewrite set_nth_length |]].
    apply Forall_set_nth; [exact Hrows |].
    split; [now rewrite set_nth_length |].
    apply Forall_set_nth; [exact Hall |].
    now apply td_update_length.
Qed.

(** *** [main]: the two trainings *)

Lemma series_from_app (al ga : R) (m k1 : nat) :
  forall (seed : Z) (k2 : nat),
  series_from al ga m seed (k1 + k2) =
  series_from al ga m seed k1 ++ series_from al ga m (seed + Z.of_nat k1) k2.
Proof.
  induction k1 as [| k1 IH]; intros seed k2.
  - cbn [Nat.add series_from app]. now rewrite Z.add_0_r.
  - cbn [Nat.add series_from app]. rewrite IH.
    replace (seed + Z.of_nat (S k1))%Z with (seed + 1 + Z.of_nat k1)%Z by lia.
    reflexivity.
Qed.

(** [main]: an agent with one run is built and trained, then an agent with
    50 runs; the step size is 0.01 and the discount is the default 0.99. *)
Definition main (args_steps : nat) (gl : globals) : option (agent * agent * globals) :=
  let alpha := 1 / 100 in
  match train_all_runs (init alpha args_steps 1 (99 / 100)) gl with
  | None => None
  | Some (agent1, gl1) =>
      match train_all_runs (init alpha args_steps 50 (99 / 100)) gl1 with
      | None => None
      | Some (agents_50, gl2) => Some (agent1, agents_50, gl2)
      end
  end.

(** [main] returns its two agents.  The single run uses the seed the counter
    holds at entry and run [r] of the 50 uses the seed after it plus [r], so
    no seed is used twice and the counter ends 51 higher; the two tensors
    together are the tensor a single training of 51 runs stores. *)
Theorem main_seeds (m : nat) (gl : globals) :
  exists agent1 agents_50 gl' a51 gl51,
    main m gl = Some (agent1, agents_50, gl') /\
    seed_count gl' = (seed_count gl + 51)%Z /\
    ws agent1 = [run_series (1 / 100) (99 / 100) m (seed_count gl)] /\
    (forall r, (r < 50)%nat ->
       nth_error (ws agents_50) r =
       Some (run_series (1 / 100) (99 / 100) m (seed_count gl + 1 + Z.of_nat r)%Z)) /\
    train_all_runs (init (1 / 100) m 51 (99 / 100)) gl = Some (a51, gl51) /\
    ws a51 = ws agent1 ++ ws agents_50 /\
    seed_count gl51 = seed_count gl'.
Proof.
  destruct (train_all_runs_eq (1 / 100) (99 / 100) m 1 gl) as (st1 & g1 & E1).
  destruct (train_all_runs_eq (1 / 100) (99 / 100) m 50
              (mkGlobals (seed_count gl + Z.of_nat 1) g1)) as (st2 & g2 & E2).
  destruct (train_all_runs_eq (1 / 100) (99 / 100) m 51 gl) as (st3 & g3 & E3).
  do 5 eexists. unfold main. rewrite E1, E2.
  split; [reflexivity |].
  cbn [with_state with_ws ws seed_count].
  split; [lia | split; [reflexivity | split; [| split; [exact E3 | split]]]].
  - intros r Hr. now apply nth_error_series_from.
  - cbn [with_state with_ws ws]. apply (series_from_app _ _ _ 1 _ 50).
  - cbn [seed_count]. lia.
Qed.

End Random.

(** *** The weights of a run as scaled integers *)

Section Scaled.
Variable rng : Type.
Variable np_seed : Z -> rng.
Variable np_next : rng -> nat * rng.

(** With step size 1/100 and discount 99/100 every weight of a run is an
    integer over a power of ten: [toR e W] is the vector [W / 10^e]. *)
Definition toR (e : nat) (W : list Z) : list R := map (fun z => IZR z / 10 ^ e) W.

Definition FZ (s : nat) : list Z :=
  nth s [ [2; 0; 0; 0; 0; 0; 0; 1];
          [0; 2; 0; 0; 0; 0; 0; 1];
          [0; 0; 2; 0; 0; 0; 0; 1];
          [0; 0; 0; 2; 0; 0; 0; 1];
          [0; 0; 0; 0; 2; 0; 0; 1];
          [0; 0; 0; 0; 0; 2; 0; 1];
          [0; 0; 0; 0; 0; 0; 1; 2] ]%Z [].

Definition Winit : list Z := [1; 1; 1; 1; 1; 1; 10; 1]%Z.

Fixpoint zdot (u v : list Z) : Z :=
  match u, v with
  | a :: u', b :: v' => (a * b + zdot u' v')%Z
  | _, _ => 0%Z
  end.

Fixpoint zaxpy (d : Z) (f W : list Z) : list Z :=
  match f, W with
  | a :: f', w :: W' => (10000 * w + 7 * a * d)%Z :: zaxpy d f' W'
  | _, _ => []
  end.

(** The update of a step from [s] into the terminal state, on the
    numerators: the exponent grows by 4. *)
Definition zupdate (s : nat) (W : list Z) : list Z :=
  zaxpy (99 * zdot (FZ 6) W - 100 * zdot (FZ s) W)%Z (FZ s) W.

(** [n] steps from state [s] on the numerators; [None] when a raw draw is
    not below 7. *)
Fixpoint zrun (s : nat) (W : list Z) (e : nat) (g : rng) (n : nat)
  : option (list Z * nat) :=
  match n with
  | O => Some (W, e)
  | S n' =>
      let (x, g') := np_next g in
      if (x <? 7)%nat then
        if (x =? 6)%nat then zrun x (zupdate s W) (e + 4) g' n'
        else zrun x W e g' n'
      else None
  end.

(** What the claim says of the last snapshot [w] of a run: the seven
    coordinates other than index 6 have strictly grown in magnitude, the
    magnitude of coordinate 6 has decreased, and the change of coordinate 6
    is less than a tenth of the change of every other coordinate. *)
Definition diverged (w : list R) : Prop :=
  (forall i, (i < 8)%nat -> i <> 6%nat -> Rabs (nth i w_init 0) < Rabs (nth i w 0)) /\
  Rabs (nth 6 w 0) < Rabs (nth 6 w_init 0) /\
  (forall i, (i < 8)%nat -> i <> 6%nat ->
     10 * Rabs (nth 6 w 0 - nth 6 w_init 0) < Rabs (nth i w 0 - nth i w_init 0)) /\
  count_grown w_init w = 7%nat.

(** The same on the numerators [W] of exponent [e]. *)
Definition zdiverged (W : list Z) (e : nat) : bool :=
  let p := (10 ^ Z.of_nat e)%Z in
  forallb (fun i => (nth i Winit 0 * p <? nth i W 0)%Z &&
                    (10 * (10 * p - nth 6 W 0) <? nth i W 0 - nth i Winit 0 * p)%Z)
          [0; 1; 2; 3; 4; 5; 7]%nat &&
  (0 <? nth 6 W 0)%Z && (nth 6 W 0 <? 10 * p)%Z.

(** The run of [steps] steps seeded with [seed], decided on the numerators. *)
Definition check_run (steps : nat) (seed : Z) : bool :=
  let (x0, g1) := np_next (np_seed seed) in
  (x0 <? 7)%nat &&
  match zrun x0 Winit 0 g1 steps with
  | Some (W, e) => zdiverged W e
  | None => false
  end.

Lemma toR_init : toR 0 Winit = w_init.
Proof.
  unfold toR, Winit, w_init. cbn [map pow].
  repeat (apply f_equal2; [lra |]). reflexivity.
Qed.

Lemma zupdate_length (s : nat) (W : list Z) :
  (s < 7)%nat -> length W = 8%nat -> length (zupdate s W) = 8%nat.
Proof.
  intros Hs HW.
  do 8 (destruct W as [| ? W]; [discriminate |]). destruct W; [| discriminate].
  do 7 (destruct s as [| s]; [reflexivity |]). lia.
Qed.

Lemma F_IZR (s : nat) : (s < 7)%nat -> F s = map IZR (FZ s).
Proof.
  intros Hs. unfold F, FZ. rewrite features_table.
  do 7 (destruct s as [| s]; [reflexivity |]). lia.
Qed.

Lemma zdot_correct (e : nat) (fz : list Z) :
  forall W, vsum (vmul (map IZR fz) (toR e W)) = IZR (zdot fz W) / 10 ^ e.
Proof.
  assert (Hp : 10 ^ e <> 0) by (apply pow_nonzero; lra).
  induction fz as [| a fz IH]; intros W.
  - cbn. field. exact Hp.
  - destruct W as [| b W].
    + cbn. field. exact Hp.
    + cbn [map toR vmul vsum fold_right zdot].
      change (fold_right Rplus 0 (vmul (map IZR fz) (map (fun z => IZR z / 10 ^ e) W)))
        with (vsum (vmul (map IZR fz) (toR e W))).
      rewrite IH, plus_IZR, mult_IZR. field. exact Hp.
Qed.

Lemma zaxpy_correct (e : nat) (c : R) (d : Z) :
  c = 7 * IZR d / (10 ^ e * 10 ^ 4) ->
  forall fz W, vadd (toR e W) (vscale c (map IZR fz)) = toR (e + 4) (zaxpy d fz W).
Proof.
  intros Hc.
  assert (Hp : 10 ^ e <> 0) by (apply pow_nonzero; lra).
  intros fz W. revert fz. induction W as [| w W IH]; intros fz.
  - destruct fz; reflexivity.
  - destruct fz as [| a fz]; [reflexivity |].
    cbn [toR map vscale vadd zaxpy]. f_equal.
    + rewrite pow_add, plus_IZR, !mult_IZR, Hc. field. exact Hp.
    + apply IH.
Qed.

Lemma zupdate_correct (s : nat) (W : list Z) (e : nat) :
  (s < 7)%nat -> length W = 8%nat ->
  td_update (1 / 100) (99 / 100) s 6 (toR e W) = toR (e + 4) (zupdate s W).
Proof.
  intros Hs HW.
  assert (Hp : 10 ^ e <> 0) by (apply pow_nonzero; lra).
  unfold td_update, zupdate.
  rewrite (F_IZR 6) by lia. rewrite (F_IZR s) by exact Hs.
  rewrite !zdot_correct. apply zaxpy_correct.
  unfold td_ratio. cbn [Nat.eqb].
  rewrite minus_IZR, !mult_IZR. field. exact Hp.
Qed.

Lemma zrun_correct (n : nat) :
  forall (s : nat) (W : list Z) (e : nat) (g : rng) (W' : list Z) (e' : nat),
  (s < 7)%nat -> length W = 8%nat ->
  zrun s W e g n = Some (W', e') ->
  final_weights rng np_next (1 / 100) (99 / 100) s (toR e W) g n = toR e' W' /\
  length W' = 8%nat.
Proof.
  induction n as [| n IH]; intros s W e g W' e' Hs HW E.
  - cbn [zrun] in E. injection E as <- <-. now split.
  - cbn [zrun final_weights] in *. unfold np_choice.
    destruct (np_next g) as [x g'].
    destruct (Nat.ltb_spec x 7) as [Hx | Hx]; [| discriminate].
    rewrite (Nat.mod_small x 7 Hx).
    destruct (Nat.eqb_spec x 6) as [-> | Hx6].
    + rewrite zupdate_correct by assumption.
      apply IH; [lia | now apply zupdate_length | exact E].
    + rewrite td_update_noop; [| assumption | unfold toR; now rewrite length_map | assumption].
      apply IH; assumption.
Qed.

Lemma scaled_gt (e : nat) (c a : Z) :
  (c * 10 ^ Z.of_nat e <? a)%Z = true -> IZR c < IZR a / 10 ^ e.
Proof.
  intros H. apply Z.ltb_lt, IZR_lt in H. rewrite mult_IZR, <- pow_IZR in H.
  assert (Hp : 0 < 10 ^ e) by (apply pow_lt; lra).
  apply (Rmult_lt_reg_r (10 ^ e)); [exact Hp |].
  replace (IZR a / 10 ^ e * 10 ^ e) with (IZR a) by (field; lra). exact H.
Qed.

Lemma scaled_lt (e : nat) (c a : Z) :
  (a <? c * 10 ^ Z.of_nat e)%Z = true -> IZR a / 10 ^ e < IZR c.
Proof.
  intros H. apply Z.ltb_lt, IZR_lt in H. rewrite mult_IZR, <- pow_IZR in H.
  assert (Hp : 0 < 10 ^ e) by (apply pow_lt; lra).
  apply (Rmult_lt_reg_r (10 ^ e)); [exact Hp |].
  replace (IZR a / 10 ^ e * 10 ^ e) with (IZR a) by (field; lra). exact H.
Qed.

Lemma scaled_pos (e : nat) (a : Z) : (0 <? a)%Z = true -> 0 < IZR a / 10 ^ e.
Proof.
  intros H. apply Z.ltb_lt, IZR_lt in H.
  apply Rdiv_lt_0_compat; [exact H | apply pow_lt; lra].
Qed.

Lemma scaled_ratio (e : nat) (c a b : Z) :
  (10 * (10 * 10 ^ Z.of_nat e - a) <? b - c * 10 ^ Z.of_nat e)%Z = true ->
  10 * (10 - IZR a / 10 ^ e) < IZR b / 10 ^ e - IZR c.
Proof.
  intros H. apply Z.ltb_lt, IZR_lt in H.
  rewrite minus_IZR, !mult_IZR, minus_IZR, mult_IZR, <- pow_IZR in H.
  assert (Hp : 0 < 10 ^ e) by (apply pow_lt; lra).
  apply (Rmult_lt_reg_r (10 ^ e)); [exact Hp |].
  replace (10 * (10 - IZR a / 10 ^ e) * 10 ^ e)
    with (10 * (10 * 10 ^ e - IZR a)) by (field; lra).
  replace ((IZR b / 10 ^ e - IZR c) * 10 ^ e)
    with (IZR b - IZR c * 10 ^ e) by (field; lra).
  exact H.
Qed.

(** A coordinate that started at 1, ended at [x > 1] and moved by more than
    ten times what coordinate 6 (from 10 to [y]) did. *)
Lemma grown_coordinate (x y : R) :
  1 < x -> 0 < y -> y < 10 -> 10 * (10 - y) < x - 1 ->
  Rabs 1 < Rabs x /\ 10 * Rabs (y - 10) < Rabs (x - 1).
Proof.
  intros H1 H2 H3 H4.
  rewrite (Rabs_pos_eq 1), (Rabs_pos_eq x), (Rabs_left (y - 10)), (Rabs_pos_eq (x - 1))
    by lra.
  split; lra.
Qed.

Lemma zdiverged_sound (W : list Z) (e : nat) :
  length W = 8%nat -> zdiverged W e = true -> diverged (toR e W).
Proof.
  intros HW H.
  destruct W as [| a0 [| a1 [| a2 [| a3 [| a4 [| a5 [| a6 [| a7 [| ? ?]]]]]]]]];
    try discriminate.
  unfold zdiverged in H. cbn [forallb nth Winit] in H.
  repeat match goal with
         | h : _ && _ = true |- _ => apply andb_prop in h; destruct h
         end.
  pose proof (scaled_pos e a6 ltac:(assumption)) as P6.
  pose proof (scaled_lt e 10 a6 ltac:(assumption)) as L6.
  assert (Hall : forall i, (i < 8)%nat -> i <> 6%nat ->
            Rabs (nth i w_init 0) < Rabs (nth i (toR e [a0; a1; a2; a3; a4; a5; a6; a7]) 0) /\
            10 * Rabs (nth 6 (toR e [a0; a1; a2; a3; a4; a5; a6; a7]) 0 - nth 6 w_init 0) <
            Rabs (nth i (toR e [a0; a1; a2; a3; a4; a5; a6; a7]) 0 - nth i w_init 0)).
  { intros i Hi Hi6. unfold w_init, toR. cbn [map].
    do 8 (destruct i as [| i];
          [first [ exfalso; apply Hi6; reflexivity
                 | cbn [nth]; apply grown_coordinate;
                   [ apply (scaled_gt e 1); assumption | exact P6 | exact L6
                   | apply (scaled_ratio e 1); assumption ] ] |]).
    lia. }
  split; [| split; [| split]].
  - intros i Hi Hi6. now apply Hall.
  - unfold w_init, toR. cbn [map nth]. rewrite !Rabs_pos_eq by lra. exact L6.
  - intros i Hi Hi6. now apply Hall.
  - unfold count_grown. cbn [seq filter].
    rewrite (grown_false _ _ 6).
    + rewrite !grown_true by (apply Hall; lia). reflexivity.
    + unfold w_init, toR. cbn [map nth]. rewrite !Rabs_pos_eq by lra. lra.
Qed.

Lemma check_run_sound (steps : nat) (seed : Z) :
  check_run steps seed = true ->
  exists w,
    nth_error (run_series rng np_seed np_next
                          (1 / 100) (99 / 100) steps seed) 0 = Some w_init /\
    nth_error (run_series rng np_seed np_next
                          (1 / 100) (99 / 100) steps seed) steps = Some w /\
    diverged w.
Proof.
  unfold check_run, run_series, np_choice.
  destruct (np_next (np_seed seed)) as [x0 g1].
  intros H. apply andb_prop in H. destruct H as [Hx H].
  apply Nat.ltb_lt in Hx. rewrite (Nat.mod_small x0 7 Hx).
  destruct (zrun x0 Winit 0 g1 steps) as [[W e] |] eqn:E; [| discriminate].
  destruct (zrun_correct steps x0 Winit 0 g1 W e Hx eq_refl E) as [Efin HW].
  rewrite toR_init in Efin.
  exists (toR e W). split; [reflexivity | split].
  - rewrite nth_error_snapshots. now f_equal.
  - now apply zdiverged_sound.
Qed.

(** [main] when the 51 runs it makes pass the check on the numerators. *)
Lemma main_diverges (m : nat) (c : Z) (g : rng) :
  (forall r, (r < 51)%nat -> check_run m (c + Z.of_nat r)%Z = true) ->
  exists agent1 agents_50 gl',
    main rng np_seed np_next m (mkGlobals rng c g) = Some (agent1, agents_50, gl') /\
    (exists w, snapshot agent1 0 0 = Some w_init /\
               snapshot agent1 0 m = Some w /\ diverged w) /\
    (forall r, (r < 50)%nat ->
       exists w, snapshot agents_50 r 0 = Some w_init /\
                 snapshot agents_50 r m = Some w /\ diverged w).
Proof.
  intros Hrun.
  destruct (train_all_runs_eq rng np_seed np_next
              (1 / 100) (99 / 100) m 1 (mkGlobals rng c g)) as (st1 & g1 & E1).
  destruct (train_all_runs_eq rng np_seed np_next
              (1 / 100) (99 / 100) m 50
              (mkGlobals rng (c + Z.of_nat 1) g1)) as (st2 & g2 & E2).
  cbn [seed_count] in E1, E2.
  do 3 eexists. unfold main. rewrite E1, E2.
  split; [reflexivity |].
  assert (Hsnap : forall k seed r (st : option nat),
            (r < k)%nat -> check_run m (seed + Z.of_nat r)%Z = true ->
            exists w,
              snapshot (with_state (with_ws (init (1 / 100) m k (99 / 100))
                         (series_from rng np_seed np_next
                            (1 / 100) (99 / 100) m seed k)) st) r 0 = Some w_init /\
              snapshot (with_state (with_ws (init (1 / 100) m k (99 / 100))
                         (series_from rng np_seed np_next
                            (1 / 100) (99 / 100) m seed k)) st) r m = Some w /\
              diverged w).
  { intros k seed r st Hr Hc.
    destruct (check_run_sound m _ Hc) as (w & H0 & H1 & Hd).
    pose proof (nth_error_series_from rng np_seed np_next
                  (1 / 100) (99 / 100) m k seed r Hr) as Hrow.
    assert (Hlen : length (run_series rng np_seed np_next
                     (1 / 100) (99 / 100) m (seed + Z.of_nat r)) = S m).
    { unfold run_series. destruct (np_choice _ _ _ _) as [s0 g0].
      cbn [length]. now rewrite snapshots_length. }
    exists w. unfold snapshot. cbn [with_state with_ws ws].
    rewrite (get2_nat _ r 0 _ Hrow), (get2_nat _ r m _ Hrow) by (rewrite Hlen; lia).
    split; [exact H0 | split; [exact H1 | exact Hd]]. }
  split.
  - apply (Hsnap 1%nat c 0%nat); [lia | apply (Hrun 0%nat); lia].
  - intros r Hr. apply (Hsnap 50%nat (c + Z.of_nat 1)%Z r); [exact Hr |].
    replace (c + Z.of_nat 1 + Z.of_nat r)%Z with (c + Z.of_nat (S r))%Z by lia.
    apply Hrun. lia.
Qed.

End Scaled.

(** *** numpy's generator *)

(** The generator behind [np.random.seed] and [np.random.choice]: numpy's
    [RandomState] is the Mersenne Twister MT19937.  The state is the key of
    624 words of 32 bits and the position of the next word. *)
Module Mt19937.

Record state := mkState { key : list Z; pos : nat }.

Definition mask32 (z : Z) : Z := Z.land z 4294967295.

(** [mt19937_seed]: the key of an integer seed. *)
Fixpoint init_key (n : nat) (i : Z) (s : Z) : list Z :=
  match n with
  | O => []
  | S n' => s :: init_key n' (i + 1)%Z
                   (mask32 (1812433253 * Z.lxor s (Z.shiftr s 30) + i + 1))
  end.

Definition seed (s : Z) : state := mkState (init_key 624 0 (mask32 s)) 624.

(** [mt19937_gen]: the key is regenerated in place, word [kk] from the
    words [kk], [kk + 1] and [kk + 397] (indices modulo 624). *)
Definition mix (k : list Z) (kk : nat) : list Z :=
  let y := Z.lor (Z.land (nth kk k 0%Z) 2147483648)
                 (Z.land (nth ((kk + 1) mod 624) k 0%Z) 2147483647) in
  set_nth kk (Z.lxor (Z.lxor (nth ((kk + 397) mod 624) k 0%Z) (Z.shiftr y 1))
                     (if Z.odd y then 2567483615%Z else 0%Z)) k.

Definition gen (k : list Z) : list Z := fold_left mix (seq 0 624) k.

Definition temper (y : Z) : Z :=
  let y := Z.lxor y (Z.shiftr y 11) in
  let y := Z.lxor y (Z.land (Z.shiftl y 7) 2636928640) in
  let y := Z.lxor y (Z.land (Z.shiftl y 15) 4022730752) in
  Z.lxor y (Z.shiftr y 18).

(** [mt19937_next]: the next word of 32 bits. *)
Definition next_uint32 (st : state) : Z * state :=
  let st := if (624 <=? pos st)%nat then mkState (gen (key st)) 0 else st in
  (temper (nth (pos st) (key st) 0%Z), mkState (key st) (S (pos st))).

(** The integer in [0, rng] behind [randint]: words are drawn and masked
    until one is at most [rng].  The loop of the library has no bound; here
    it gives up after [fuel] rejected words and returns the rejected value,
    which is above [rng]. *)
Fixpoint bounded_masked (fuel : nat) (rng mask : Z) (st : state) : Z * state :=
  let (v, st') := next_uint32 st in
  let val := Z.land v mask in
  match fuel with
  | O => (val, st')
  | S fuel' => if (val <=? rng)%Z then (val, st') else bounded_masked fuel' rng mask st'
  end.

End Mt19937.

(** The raw draw of [np.random.choice(7)], which is [randint(0, 7)]: an
    integer in [0, 6] by masked rejection with the mask 7.  A result of 7
    tells that 64 words in a row were rejected. *)
Definition numpy_next (g : Mt19937.state) : nat * Mt19937.state :=
  let (v, g') := Mt19937.bounded_masked 64 6 7 g in (Z.to_nat v, g').

(** The 51 runs of [main]: the seeds 16 to 66, 1000 steps each. *)
Lemma main_runs_checked :
  forallb (check_run Mt19937.state Mt19937.seed numpy_next 1000)
          (map Z.of_nat (seq 16 51)) = true.
Proof. vm_cast_no_check (eq_refl true). Qed.

(** *** C1: divergence along the runs of [main] *)

(** C1.  [main] with the default 1000 steps, the seed counter at its initial
    value 16 and numpy's generator returns its two agents, trained with
    step size 0.01 and discount 0.99.  In the single run of the first agent
    and in each of the 50 runs of the second, the weights start from
    [1,1,1,1,1,1,10,1] and after the 1000 steps the seven coordinates other
    than index 6 have strictly grown in magnitude (so at least 6 of the 8
    have), while coordinate 6 has decreased in magnitude and has changed by
    less than a tenth of the change of every other coordinate. *)
Theorem baird_divergence (g : Mt19937.state) :
  exists agent1 agents_50 gl',
    main Mt19937.state Mt19937.seed numpy_next 1000 (mkGlobals Mt19937.state 16 g) =
      Some (agent1, agents_50, gl') /\
    (exists w, snapshot agent1 0 0 = Some w_init /\
               snapshot agent1 0 1000 = Some w /\ diverged w) /\
    (forall r, (r < 50)%nat ->
       exists w, snapshot agents_50 r 0 = Some w_init /\
                 snapshot agents_50 r 1000 = Some w /\ diverged w).
Proof.
  apply main_diverges. intros r Hr.
  pose proof main_runs_checked as Hall. rewrite forallb_forall in Hall.
  replace (16 + Z.of_nat r)%Z with (Z.of_nat (16 + r)) by lia.
  apply Hall. apply in_map. apply in_seq. lia.
Qed.

(** *** Two generators for examples *)

(** A generator that draws the states 0..5 in turn, each followed by 6; its
    state is the number of draws made so far. *)
Definition cyc_next (g : nat) : nat * nat :=
  ((if Nat.even g then (g / 2) mod 6 else 6)%nat, S g).

Definition cyc_seed (seed : Z) : nat := (2 * Z.to_nat seed)%nat.

Lemma one_step_contract_witness :
  let a := with_state (init (1 / 100) 3 2 (99 / 100)) (Some 0%nat) in
  let s' := fst (np_choice nat cyc_next 7 1%nat) in
  exists w a',
    snapshot a 1 (1 - 1) = Some w /\
    semi_gradient_one_step nat cyc_next a 1%nat 1 1 =
      Some (a', snd (np_choice nat cyc_next 7 1%nat)) /\
    let delta := gamma a * vsum (vmul (F s') w) - vsum (vmul (F 0) w) in
    let ratio := if (s' =? 6)%nat then 7 else 0 in
    snapshot a' 1 1 = Some (vadd w (vscale (alpha a * ratio * delta) (F 0))) /\
    current_state a' = Some s' /\
    (s' <> 6%nat -> snapshot a' 1 1 = Some w).
Proof.
  apply (one_step_contract nat cyc_next
           (with_state (init (1 / 100) 3 2 (99 / 100)) (Some 0%nat)) 1%nat 1 1 0).
  - exact (init_shaped (1 / 100) (99 / 100) 3 2).
  - reflexivity.
  - lia.
  - simpl. lia.
  - simpl. lia.
Defined.

Lemma train_all_runs_reproducible_witness :
  exists a1 gl1' a2 gl2' a3 gl3',
    train_all_runs nat cyc_seed cyc_next (init (1 / 100) 5 1 (99 / 100))
                   (mkGlobals nat 16 0%nat) = Some (a1, gl1') /\
    train_all_runs nat cyc_seed cyc_next (init (1 / 100) 5 1 (99 / 100))
                   (mkGlobals nat 16 7%nat) = Some (a2, gl2') /\
    train_all_runs nat cyc_seed cyc_next (init (1 / 100) 5 2 (99 / 100))
                   (mkGlobals nat 16 7%nat) = Some (a3, gl3') /\
    ws a1 = ws a2 /\
    ws a1 = firstn 1 (ws a3) /\
    seed_count nat gl1' = (16 + Z.of_nat 1)%Z /\
    (forall r, (r < 2)%nat ->
       nth_error (ws a3) r =
       Some (run_series nat cyc_seed cyc_next (1 / 100) (99 / 100) 5 (16 + Z.of_nat r)%Z)).
Proof.
  apply (train_all_runs_reproducible nat cyc_seed cyc_next (1 / 100) (99 / 100) 5 1 2
           (mkGlobals nat 16 0%nat) (mkGlobals nat 16 7%nat)).
  - reflexivity.
  - lia.
Defined.

Lemma random_argmax_attains_max_witness :
  random_argmax nat cyc_next [] 0%nat = None /\
  exists i g',
    random_argmax nat cyc_next [1; 3; 2] 0%nat = Some (i, g') /\
    (i < length [1; 3; 2])%nat /\
    (forall j, (j < length [1; 3; 2])%nat -> nth j [1; 3; 2] 0 <= nth i [1; 3; 2] 0) /\
    ((forall j, (j < length [1; 3; 2])%nat -> j <> i ->
                nth j [1; 3; 2] 0 < nth i [1; 3; 2] 0) ->
     forall h, exists h', random_argmax nat cyc_next [1; 3; 2] h = Some (i, h')).
Proof.
  apply (random_argmax_attains_max nat cyc_next [1; 3; 2] 0%nat).
  discriminate.
Defined.

Lemma one_step_frame_witness :
  let a := with_state (init (1 / 100) 3 2 (99 / 100)) (Some 0%nat) in
  exists w w' a',
    snapshot a 1 (1 - 1) = Some w /\
    semi_gradient_one_step nat cyc_next a 1%nat 1 1 =
      Some (a', snd (np_choice nat cyc_next 7 1%nat)) /\
    snapshot a' 1 1 = Some w' /\
    (forall i, i <> 0%nat -> i <> 7%nat -> nth i w' 0 = nth i w 0) /\
    (forall r k, (r, k) <> (1%nat, 1%nat) -> snapshot a' r k = snapshot a r k) /\
    shaped a'.
Proof.
  apply (one_step_frame nat cyc_next
           (with_state (init (1 / 100) 3 2 (99 / 100)) (Some 0%nat)) 1%nat 1 1 0).
  - exact (init_shaped (1 / 100) (99 / 100) 3 2).
  - reflexivity.
  - lia.
  - simpl. lia.
  - simpl. lia.
Defined.

(** *** The helper [softmax] *)

(** [softmax]: the maximum is subtracted before the exponentials are taken;
    [max(x)] raises ValueError on an empty vector.  The exponentials are the
    real ones: an entry far below the maximum is positive here, where the
    floating-point exponential underflows to 0. *)
Definition softmax (x : list R) : option (list R) :=
  match amax x with
  | None => None
  | Some m =>
      let z := map (fun v => v - m) x in
      let e := map exp z in
      Some (map (fun u => u / vsum e) e)
  end.

Lemma softmax_eq (x : list R) :
  x <> [] -> softmax x = Some (map (fun v => exp v / vsum (map exp x)) x).
Proof.
  intros Hne. destruct (amax_some x Hne) as [m Hm].
  unfold softmax. rewrite Hm. cbv zeta. f_equal.
  rewrite (map_map exp). exact (exp_share_shift (- m) x).
Qed.

(** [softmax] on a non-empty vector returns what the formula without the
    subtraction gives, [exp(x_i) / sum_j exp(x_j)] (the identity the source
    comment relies on): a vector as long as [x], with entries in [0, 1] that
    sum to 1, in which an entry at a position where [x] is largest is at
    least 1 over the length, and the same vector when a constant is added to
    every entry of [x].  On the empty vector it raises. *)
Theorem softmax_stable (x : list R) :
  x <> [] ->
  softmax [] = None /\
  exists p,
    softmax x = Some p /\
    p = map (fun v => exp v / vsum (map exp x)) x /\
    length p = length x /\
    vsum p = 1 /\
    Forall (fun q => 0 <= q <= 1) p /\
    (forall i, (i < length x)%nat ->
       (forall j, (j < length x)%nat -> nth j x 0 <= nth i x 0) ->
       / INR (length x) <= nth i p 0) /\
    (forall c, softmax (map (fun v => v + c) x) = Some p).
Proof.
  intros Hne. split; [reflexivity |].
  eexists. split; [now apply softmax_eq |].
  split; [reflexivity | split; [apply length_map | split; [| split; [| split]]]].
  - now apply exp_share_sum.
  - eapply Forall_impl; [| apply exp_share_bounds].
    intros q [H0 H1]. split; [lra | exact H1].
  - intros i Hi Hmax.
    pose proof (vsum_exp_pos x Hne) as Hs.
    assert (Hn : 0 < INR (length x)) by (apply lt_0_INR; lia).
    assert (Hle : vsum (map exp x) <= INR (length x) * exp (nth i x 0)).
    { apply vsum_exp_le_max. apply Forall_forall. intros v Hv.
      destruct (In_nth x v 0 Hv) as (j & Hj & <-). now apply Hmax. }
    rewrite (nth_indep _ 0 ((fun v => exp v / vsum (map exp x)) 0))
      by (now rewrite length_map).
    rewrite (map_nth (fun v => exp v / vsum (map exp x))).
    pose proof (exp_pos (nth i x 0)) as He.
    apply (Rmult_le_reg_r (INR (length x) * vsum (map exp x))).
    + now apply Rmult_lt_0_compat.
    + replace (/ INR (length x) * (INR (length x) * vsum (map exp x)))
        with (vsum (map exp x)) by (field; lra).
      replace (exp (nth i x 0) / vsum (map exp x) * (INR (length x) * vsum (map exp x)))
        with (INR (length x) * exp (nth i x 0)) by (field; lra).
      exact Hle.
  - intros c. rewrite softmax_eq by (destruct x; [contradiction | discriminate]).
    f_equal. apply exp_share_shift.
Qed.

Lemma softmax_stable_witness :
  softmax [] = None /\
  exists p,
    softmax [1; 2; 3] = Some p /\
    p = map (fun v => exp v / vsum (map exp [1; 2; 3])) [1; 2; 3] /\
    length p = length [1; 2; 3] /\
    vsum p = 1 /\
    Forall (fun q => 0 <= q <= 1) p /\
    (forall i, (i < length [1; 2; 3])%nat ->
       (forall j, (j < length [1; 2; 3])%nat -> nth j [1; 2; 3] 0 <= nth i [1; 2; 3] 0) ->
       / INR (length [1; 2; 3]) <= nth i p 0) /\
    (forall c, softmax (map (fun v => v + c) [1; 2; 3]) = Some p).
Proof.
  apply (softmax_stable [1; 2; 3]). discriminate.
Defined.

(** *** Plotting: the band and the panel of a weight *)

(** What [plot_line_variance] hands to matplotlib: the abscissae, the two
    edges of the filled band and the curve of the averages. *)
Record band := mkBand {
  x_values : list nat;
  upper : list R;
  lower : list R;
  curve : list R
}.

Definition plot_line_variance (data_one_var : list (list R)) (delta : R) : band :=
  let avg := average0 data_one_var in
  let std := std0 data_one_var in
  mkBand (seq 1 (length (hd [] data_one_var)))
         (vadd avg (vscale delta std))
         (vsub avg (vscale delta std))
         avg.

(** [axs[id_ax // len(axs[0]), id_ax % len(axs[0])]] for a grid of axes of
    shape (nrows, ncols): the cell, or an exception ([axs[0]] on an empty
    grid, a division by zero, an index out of the grid). *)
Definition subplot (nrows ncols id_ax : nat) : option (nat * nat) :=
  if (nrows =? 0)%nat then None
  else if (ncols =? 0)%nat then None
  else
    let r := (id_ax / ncols)%nat in
    let c := (id_ax mod ncols)%nat in
    if (r <? nrows)%nat && (c <? ncols)%nat then Some (r, c) else None.

Lemma agreeing_column (data : list (list R)) (j : nat) (v : R) :
  Forall (fun row => nth j row 0 = v) data ->
  Forall (fun x => x = v) (column data j).
Proof.
  unfold column. induction 1; cbn [map]; constructor; auto.
Qed.

(** [plot_line_variance] on a table of at least one trial whose rows have
    [T] time steps, with a scaling [delta >= 0]: the abscissae are 1..T, the
    curve and the two edges of the band have [T] points, the curve lies
    between the edges, and wherever the trials agree (in particular with a
    single trial) the band collapses onto the common value. *)
Theorem plot_line_variance_band (data : list (list R)) (delta : R) (T : nat) :
  data <> [] -> Forall (fun row => length row = T) data -> 0 <= delta ->
  let b := plot_line_variance data delta in
  x_values b = seq 1 T /\
  length (curve b) = T /\ length (upper b) = T /\ length (lower b) = T /\
  (forall j, (j < T)%nat -> nth j (lower b) 0 <= nth j (curve b) 0 <= nth j (upper b) 0) /\
  (forall j v, (j < T)%nat -> Forall (fun row => nth j row 0 = v) data ->
     nth j (curve b) 0 = v /\ nth j (upper b) 0 = v /\ nth j (lower b) 0 = v).
Proof.
  intros Hne Hrows Hdelta b.
  assert (HT : length (hd [] data) = T).
  { destruct data as [| row0 rest]; [contradiction |]. now inversion Hrows. }
  assert (Hn : 0 < INR (length data)).
  { apply lt_0_INR. destruct data; [contradiction | simpl; lia]. }
  assert (Lavg : length (average0 data) = T).
  { unfold average0. now rewrite length_map, length_seq. }
  assert (Lstd : length (std0 data) = T).
  { unfold std0. now rewrite length_map, length_seq. }
  assert (Lsc : length (vscale delta (std0 data)) = T) by now rewrite vscale_length.
  assert (Hstd : forall j, (j < T)%nat -> 0 <= nth j (std0 data) 0).
  { intros j Hj. unfold std0. rewrite HT, nth_map_seq by exact Hj. apply sqrt_pos. }
  unfold b, plot_line_variance. cbn [x_values curve upper lower]. rewrite HT.
  split; [reflexivity | split; [exact Lavg | split; [| split; [| split]]]].
  - rewrite vadd_length; congruence.
  - rewrite vsub_length; congruence.
  - intros j Hj. specialize (Hstd j Hj).
    rewrite nth_vsub, nth_vadd, nth_vscale by lia.
    assert (0 <= delta * nth j (std0 data) 0) by now apply Rmult_le_pos.
    lra.
  - intros j v Hj Hagree.
    pose proof (agreeing_column data j v Hagree) as Hcol.
    assert (Elen : length (column data j) = length data) by apply length_map.
    assert (Eavg : nth j (average0 data) 0 = v).
    { unfold average0. rewrite HT, nth_map_seq by exact Hj.
      rewrite (vsum_const v) by exact Hcol. rewrite Elen. field. lra. }
    assert (Estd : nth j (std0 data) 0 = 0).
    { unfold std0. rewrite HT, nth_map_seq by exact Hj. cbv zeta.
      rewrite (vsum_const v (column data j)) by exact Hcol. rewrite Elen.
      replace (INR (length data) * v / INR (length data)) with v by (field; lra).
      rewrite (vsum_const 0).
      - rewrite Rmult_0_r. unfold Rdiv. rewrite Rmult_0_l. apply sqrt_0.
      - apply Forall_forall. intros y Hy. apply in_map_iff in Hy.
        destruct Hy as (x & <- & Hx). rewrite Forall_forall in Hcol.
        rewrite (Hcol x Hx). ring. }
    rewrite nth_vsub, nth_vadd, nth_vscale by lia.
    rewrite Eavg, Estd. repeat split; ring.
Qed.

Lemma plot_line_variance_band_witness :
  let b := plot_line_variance [[1; 2; 4]; [3; 2; 0]] 1 in
  x_values b = seq 1 3 /\
  length (curve b) = 3%nat /\ length (upper b) = 3%nat /\ length (lower b) = 3%nat /\
  (forall j, (j < 3)%nat -> nth j (lower b) 0 <= nth j (curve b) 0 <= nth j (upper b) 0) /\
  (forall j v, (j < 3)%nat -> Forall (fun row => nth j row 0 = v) [[1; 2; 4]; [3; 2; 0]] ->
     nth j (curve b) 0 = v /\ nth j (upper b) 0 = v /\ nth j (lower b) 0 = v).
Proof.
  apply (plot_line_variance_band [[1; 2; 4]; [3; 2; 0]] 1 3).
  - discriminate.
  - repeat constructor.
  - lra.
Defined.

(** The panel of a weight: [subplot] returns the cell (r, c) exactly for the
    index [r * ncols + c] of a cell of the grid, and raises for every other
    index; so the indices below [nrows * ncols] and the cells of the grid
    correspond one to one (the 8 weights and the 4 x 2 grid of
    [plot_all_variances]). *)
Theorem subplot_cells (nrows ncols id_ax r c : nat) :
  subplot nrows ncols id_ax = Some (r, c) <->
  (r < nrows)%nat /\ (c < ncols)%nat /\ id_ax = (r * ncols + c)%nat.
Proof.
  unfold subplot.
  destruct (Nat.eqb_spec nrows 0) as [-> | Hr].
  { split; [discriminate | lia]. }
  destruct (Nat.eqb_spec ncols 0) as [-> | Hc].
  { split; [discriminate | lia]. }
  cbv zeta.
  destruct (Nat.ltb_spec (id_ax / ncols) nrows) as [H1 | H1];
    destruct (Nat.ltb_spec (id_ax mod ncols) ncols) as [H2 | H2]; cbn [andb].
  - split.
    + intros [= <- <-]. split; [exact H1 | split; [exact H2 |]].
      rewrite Nat.mul_comm. apply Nat.div_mod_eq.
    + intros (_ & Hcc & ->). f_equal. f_equal.
      * symmetry. apply (Nat.div_unique _ _ r c); [exact Hcc | lia].
      * symmetry. apply (Nat.mod_unique _ _ r c); [exact Hcc | lia].
  - pose proof (Nat.mod_upper_bound id_ax ncols Hc). lia.
  - split; [discriminate |]. intros (Hrr & Hcc & ->). exfalso.
    rewrite <- (Nat.div_unique (r * ncols + c) ncols r c) in H1; lia.
  - pose proof (Nat.mod_upper_bound id_ax ncols Hc). lia.
Qed.

End HW03Q01.


(** ** HW03Q02.py: REINFORCE and Actor-Critic on a gym environment *)

Module HW03Q02.
Import Np.

(** The parsed command line, the module-level [args].  The discount and the
    learning rates are the decimal numbers given on the command line. *)
Record arguments := mkArgs {
  arg_seed : option Z;
  arg_env : string;
  arg_gamma : Q;
  arg_alphas : list Q;
  arg_hidden_size : list nat;
  arg_runs : nat;
  arg_episodes : nat;
  arg_max_steps : nat;
  arg_update_every : nat;
  arg_render : bool
}.

(** *** Rewards *)

(** [discount_rewards]: the loop over [rewards[::-1]] keeps the running
    return [R] and inserts it at the front of [returns]. *)
Definition discount_rewards (args : arguments) (rewards : list R) : list R :=
  snd (fold_left
         (fun (st : R * list R) (r : R) =>
            let R' := r + Q2R (arg_gamma args) * fst st in (R', R' :: snd st))
         (rev rewards) (0, [])).

(** [returns.mean()], [returns.std()] (torch's default, with Bessel's
    correction) and the normalisation of [backprop_rf] and [backprop_ac].
    For a single return torch's [std] is nan (a quotient 0/0), and so are
    the normalised return and the loss; [std] here is a real number for
    every list, so what is said of the normalised returns describes the
    code for episodes of at least two steps. *)
Definition mean (xs : list R) : R := vsum xs / INR (length xs).

Definition std (xs : list R) : R :=
  sqrt (vsum (map (fun x => (x - mean xs) * (x - mean xs)) xs) / (INR (length xs) - 1)).

(** [np.finfo(np.float32).eps.item()], that is 2^-23. *)
Definition eps : R := / 8388608.

Definition normalize (xs : list R) : list R :=
  map (fun x => (x - mean xs) / (std xs + eps)) xs.

(** *** The network *)

Record linear := mkLinear { weight : list (list R); bias : list R }.

Record parameters := mkParams {
  hidden : linear;
  action_head : linear;
  value_head : linear
}.

Inductive layer := Hidden | ActionHead | ValueHead.

Definition get_layer (p : parameters) (l : layer) : linear :=
  match l with
  | Hidden => hidden p
  | ActionHead => action_head p
  | ValueHead => value_head p
  end.

Definition set_layer (p : parameters) (l : layer) (x : linear) : parameters :=
  match l with
  | Hidden => mkParams x (action_head p) (value_head p)
  | ActionHead => mkParams (hidden p) x (value_head p)
  | ValueHead => mkParams (hidden p) (action_head p) x
  end.

(** [nn.Linear], [F.relu] and [F.softmax].  The exponentials of [softmax]
    are the real ones, never 0; in floating point a probability can
    underflow to 0, and is nan once a parameter is nan. *)
Definition apply_linear (l : linear) (x : list R) : list R :=
  vadd (map (fun row => vsum (vmul row x)) (weight l)) (bias l).

Definition relu (x : R) : R := Rmax 0 x.

Definition softmax (z : list R) : list R :=
  map (fun x => exp x / vsum (map exp z)) z.

(** [forward]: the action probabilities and the value estimate. *)
Definition forward (p : parameters) (x : list R) : list R * list R :=
  let h := map relu (apply_linear (hidden p) x) in
  (softmax (apply_linear (action_head p) h), apply_linear (value_head p) h).

(** An entry of the [actions] buffer.  The pair of tensors
    [[distr.log_prob(action), value]] is represented by the observation and
    the action of the forward pass that produced it; the two tensors, as
    functions of the parameters they were computed from, are [log_prob] and
    [value]. *)
Definition entry : Type := list R * nat.

Definition log_prob (p : parameters) (e : entry) : R :=
  ln (nth (snd e) (fst (forward p (fst e))) 0).

Definition value (p : parameters) (e : entry) : R :=
  nth 0 (snd (forward p (fst e))) 0.

(** [F.smooth_l1_loss] on one element. *)
Definition smooth_l1_loss (x y : R) : R :=
  if Rlt_dec (Rabs (x - y)) 1
  then / 2 * (x - y) * (x - y)
  else Rabs (x - y) - / 2.

(** *** Exceptions, events and the state of the process *)

Inductive exn := AssertionError | ZeroDivisionError | RuntimeError | EnvError.

(** The outcome of a call: a value, an exception, or a loop that has not
    finished within the fuel. *)
Inductive result (A : Type) :=
| Ok (a : A)
| Raise (e : exn)
| OutOfFuel.
Arguments Ok {A} a.
Arguments Raise {A} e.
Arguments OutOfFuel {A}.

(** What the process does that can be observed from outside. *)
Inductive event :=
| Announce (agent : string) (hidden_size : nat) (alpha : Q)  (* the line printed by [runs] *)
| Make (name : string)                                       (* [gym.make] *)
| Backprop                                                   (* [model.backprop()] *)
| Report (episode steps : nat).                              (* the line printed by [one_run] *)

(** *** C3: discounted returns *)

(** The defaults of the command line. *)
Definition default_args : arguments :=
  mkArgs None "CartPole-v0" (9 # 10) [1 # 100; 1 # 1000; 1 # 10000]%Q [32; 64; 128]%nat
         5 2000 200 10 false.

Definition set_gamma (args : arguments) (g : Q) : arguments :=
  mkArgs (arg_seed args) (arg_env args) g (arg_alphas args) (arg_hidden_size args)
         (arg_runs args) (arg_episodes args) (arg_max_steps args) (arg_update_every args)
         (arg_render args).

Lemma discount_fold_head (ga : R) (l : list R) :
  forall st : R * list R,
  fst st = hd 0 (snd st) ->
  let st' := fold_left (fun (st : R * list R) (r : R) =>
                          let R' := r + ga * fst st in (R', R' :: snd st)) l st in
  fst st' = hd 0 (snd st').
Proof.
  induction l as [| r l IH]; intros st H; [exact H |].
  cbn [fold_left]. apply IH. reflexivity.
Qed.

Lemma discount_rewards_cons (args : arguments) (r : R) (rs : list R) :
  discount_rewards args (r :: rs) =
  (r + Q2R (arg_gamma args) * hd 0 (discount_rewards args rs)) :: discount_rewards args rs.
Proof.
  unfold discount_rewards. cbn [rev]. rewrite fold_left_app.
  pose proof (discount_fold_head (Q2R (arg_gamma args)) (rev rs) (0, []) eq_refl) as H.
  cbv zeta in H.
  set (st := fold_left _ (rev rs) (0, [])) in *.
  cbn [fold_left snd fst]. now rewrite H.
Qed.

Lemma discount_rewards_length (args : arguments) (rs : list R) :
  length (discount_rewards args rs) = length rs.
Proof.
  induction rs as [| r rs IH]; [reflexivity |].
  rewrite discount_rewards_cons. simpl. now rewrite IH.
Qed.

(** C3.  [discount_rewards] returns a list as long as the rewards, in
    chronological order, with [R_t = r_t + gamma * R_(t+1)] at every
    position (the return after the last position counting as 0) and so
    [R_T = r_T] at the last one; on [1,1,1] with discount 0.5 it returns
    [1.75, 1.5, 1]; on the empty list it returns the empty list. *)
Theorem discount_rewards_correct (args : arguments) (rs : list R) :
  length (discount_rewards args rs) = length rs /\
  (forall t, (t < length rs)%nat ->
     nth t (discount_rewards args rs) 0 =
     nth t rs 0 + Q2R (arg_gamma args) * nth (S t) (discount_rewards args rs) 0) /\
  (forall t, S t = length rs ->
     nth t (discount_rewards args rs) 0 = nth t rs 0) /\
  discount_rewards (set_gamma args (1 # 2)) [1; 1; 1] = [7 / 4; 3 / 2; 1] /\
  discount_rewards args [] = [].
Proof.
  assert (Hrec : forall t, (t < length rs)%nat ->
     nth t (discount_rewards args rs) 0 =
     nth t rs 0 + Q2R (arg_gamma args) * nth (S t) (discount_rewards args rs) 0).
  { induction rs as [| r rs IH]; intros t Ht; [simpl in Ht; lia |].
    rewrite discount_rewards_cons. destruct t as [| t].
    - cbn [nth]. now destruct (discount_rewards args rs).
    - cbn [nth]. rewrite IH by (simpl in Ht; lia). reflexivity. }
  split; [apply discount_rewards_length | split; [exact Hrec | split; [| split]]].
  - intros t Ht. rewrite Hrec by lia.
    rewrite (nth_overflow (discount_rewards args rs))
      by (rewrite discount_rewards_length; lia).
    lra.
  - unfold discount_rewards.
    cbn [rev app fold_left fst snd set_gamma arg_gamma].
    replace (Q2R (1 # 2)) with (1 / 2) by (unfold Q2R; simpl; lra).
    f_equal; [lra | f_equal; [lra | f_equal; lra]].
  - reflexivity.
Qed.

(** *** C5: normalisation of the returns *)

Lemma eps_bounds : 1 / 10000000 < eps < 2 / 10000000.
Proof. unfold eps. split; lra. Qed.

Lemma vsum_shift_scale (m d : R) (xs : list R) :
  vsum (map (fun x => (x - m) / d) xs) = (vsum xs - INR (length xs) * m) / d.
Proof.
  induction xs as [| x xs IH].
  - simpl. lra.
  - cbn [map vsum fold_right length]. fold (vsum (map (fun x => (x - m) / d) xs)).
    fold (vsum xs). rewrite IH, S_INR. lra.
Qed.

Lemma vsum_squares_scale (m d : R) (xs : list R) :
  vsum (map (fun y => (y - 0) * (y - 0)) (map (fun x => (x - m) / d) xs)) =
  vsum (map (fun x => (x - m) * (x - m)) xs) * (/ d * / d).
Proof.
  induction xs as [| x xs IH].
  - simpl. lra.
  - cbn [map vsum fold_right].
    fold (vsum (map (fun y => (y - 0) * (y - 0)) (map (fun x => (x - m) / d) xs))).
    fold (vsum (map (fun x => (x - m) * (x - m)) xs)).
    rewrite IH. unfold Rdiv. lra.
Qed.

Lemma vsum_squares_nonneg (m : R) (xs : list R) :
  0 <= vsum (map (fun x => (x - m) * (x - m)) xs).
Proof.
  unfold vsum. induction xs as [| x xs IH]; [simpl; lra |].
  cbn [map fold_right].
  pose proof (Rle_0_sqr (x - m)) as Hsq. unfold Rsqr in Hsq. lra.
Qed.

Lemma std_nonneg (xs : list R) : 0 <= std xs.
Proof. apply sqrt_pos. Qed.

Lemma normalize_length (xs : list R) : length (normalize xs) = length xs.
Proof. apply length_map. Qed.

Lemma normalize_mean (xs : list R) : xs <> [] -> mean (normalize xs) = 0.
Proof.
  intros Hne. unfold mean, normalize at 1. rewrite vsum_shift_scale.
  assert (Hn : INR (length xs) <> 0).
  { apply not_0_INR. destruct xs; [contradiction | discriminate]. }
  unfold mean. replace (vsum xs - INR (length xs) * (vsum xs / INR (length xs))) with 0
    by (field; exact Hn).
  unfold Rdiv. now rewrite !Rmult_0_l.
Qed.

Lemma normalize_std (xs : list R) :
  (2 <= length xs)%nat -> std (normalize xs) = std xs / (std xs + eps).
Proof.
  intros Hlen.
  assert (Hne : xs <> []) by (destruct xs; [simpl in Hlen; lia | discriminate]).
  pose proof (std_nonneg xs) as Hs. pose proof eps_bounds as He.
  assert (Hd : 0 < std xs + eps) by lra.
  unfold std at 1. rewrite normalize_mean by exact Hne.
  rewrite normalize_length. unfold normalize.
  rewrite vsum_squares_scale.
  set (ss := vsum (map (fun x => (x - mean xs) * (x - mean xs)) xs)).
  replace (ss * (/ (std xs + eps) * / (std xs + eps)) / (INR (length xs) - 1))
    with (ss / (INR (length xs) - 1) * (/ (std xs + eps) * / (std xs + eps)))
    by (unfold Rdiv; ring).
  assert (Hn1 : 0 < INR (length xs) - 1).
  { apply le_INR in Hlen. simpl in Hlen. lra. }
  assert (Hv : 0 <= ss / (INR (length xs) - 1)).
  { apply Rmult_le_pos; [apply vsum_squares_nonneg |].
    left. now apply Rinv_0_lt_compat. }
  rewrite sqrt_mult_alt by exact Hv.
  rewrite sqrt_square by (left; now apply Rinv_0_lt_compat).
  reflexivity.
Qed.

Lemma normalize_std_near_one (xs : list R) :
  (2 <= length xs)%nat ->
  std (normalize xs) < 1 /\
  (Rabs (std (normalize xs) - 1) <= eps <-> 1 - eps <= std xs).
Proof.
  intros Hlen. rewrite normalize_std by exact Hlen.
  pose proof (std_nonneg xs) as Hs. pose proof eps_bounds as He.
  set (s := std xs) in *.
  assert (Hd : 0 < s + eps) by lra.
  assert (Hq : s / (s + eps) - 1 = - (eps / (s + eps))) by (field; lra).
  assert (Hpos : 0 < eps / (s + eps)).
  { apply Rmult_lt_0_compat; [lra | now apply Rinv_0_lt_compat]. }
  split.
  - lra.
  - rewrite Hq, Rabs_Ropp, Rabs_pos_eq by lra.
    split; intros H.
    + apply (Rmult_le_compat_r (s + eps)) in H; [| lra].
      unfold Rdiv in H. rewrite Rmult_assoc, Rinv_l, Rmult_1_r in H by lra.
      nra.
    + apply (Rmult_le_reg_r (s + eps)); [lra |].
      unfold Rdiv. rewrite Rmult_assoc, Rinv_l, Rmult_1_r by lra.
      nra.
Qed.

(** C5 (as amended).  The returns are normalised as
    [(returns - mean) / (std + eps)] with [eps = 2^-23], between 1e-7 and
    2e-7.  For at least two rewards the normalised returns have mean 0 and
    standard deviation [std / (std + eps)], which is below 1 and is within
    [eps] of 1 exactly when the standard deviation of the returns is at
    least [1 - eps]. *)
Theorem normalize_moments (args : arguments) (rs : list R) :
  (2 <= length rs)%nat ->
  let returns := discount_rewards args rs in
  normalize returns = map (fun x => (x - mean returns) / (std returns + eps)) returns /\
  1 / 10000000 < eps < 2 / 10000000 /\
  mean (normalize returns) = 0 /\
  std (normalize returns) = std returns / (std returns + eps) /\
  std (normalize returns) < 1 /\
  (Rabs (std (normalize returns) - 1) <= eps <-> 1 - eps <= std returns).
Proof.
  intros Hlen returns.
  assert (Hlen' : (2 <= length returns)%nat)
    by (unfold returns; now rewrite discount_rewards_length).
  split; [reflexivity | split; [exact eps_bounds | split; [| split]]].
  - apply normalize_mean. destruct returns; [simpl in Hlen'; lia | discriminate].
  - now apply normalize_std.
  - now apply normalize_std_near_one.
Qed.

Lemma normalize_moments_witness :
  let returns := discount_rewards default_args [6 / 10; 55 / 100; 1 / 2] in
  normalize returns = map (fun x => (x - mean returns) / (std returns + eps)) returns /\
  1 / 10000000 < eps < 2 / 10000000 /\
  mean (normalize returns) = 0 /\
  std (normalize returns) = std returns / (std returns + eps) /\
  std (normalize returns) < 1 /\
  (Rabs (std (normalize returns) - 1) <= eps <-> 1 - eps <= std returns).
Proof.
  apply (normalize_moments default_args [6 / 10; 55 / 100; 1 / 2]).
  simpl. lia.
Defined.

Lemma example_returns :
  discount_rewards default_args [6 / 10; 55 / 100; 1 / 2] = [3 / 2; 1; 1 / 2].
Proof.
  unfold discount_rewards.
  cbn [rev app fold_left fst snd default_args arg_gamma].
  replace (Q2R (9 # 10)) with (9 / 10) by (unfold Q2R; simpl; lra).
  f_equal; [lra | f_equal; [lra | f_equal; lra]].
Qed.

Lemma example_std : std [3 / 2; 1; 1 / 2] = 1 / 2.
Proof.
  unfold std, mean. cbn [map vsum fold_right length INR].
  replace (_ / (1 + 1 + 1 - 1)) with ((1 / 2) * (1 / 2)) by field.
  apply sqrt_square. lra.
Qed.

(** C5, the claim as stated fails: with the default discount 0.9 the rewards
    [0.6, 0.55, 0.5] are not constant, their returns [1.5, 1, 0.5] have
    standard deviation 0.5, and the normalised returns have standard
    deviation [0.5 / (0.5 + eps)], further than [eps] from 1. *)
Lemma normalize_counterexample :
  6 / 10 <> 55 / 100 /\
  ~ Rabs (std (normalize (discount_rewards default_args [6 / 10; 55 / 100; 1 / 2])) - 1)
    <= eps.
Proof.
  split; [lra |].
  rewrite example_returns. intros H.
  apply normalize_std_near_one in H; [| simpl; lia].
  rewrite example_std in H. pose proof eps_bounds. lra.
Qed.
(** *** More on the returns and on the forward pass *)

(** The sum [1 + gamma + ... + gamma^(k-1)]. *)
Fixpoint geometric (ga : R) (k : nat) : R :=
  match k with
  | O => 0
  | S k' => 1 + ga * geometric ga k'
  end.

Lemma geometric_closed (ga : R) (k : nat) : geometric ga k * (1 - ga) = 1 - ga ^ k.
Proof.
  induction k as [| k IH]; cbn [geometric pow]; [lra |].
  replace ((1 + ga * geometric ga k) * (1 - ga))
    with (1 - ga + ga * (geometric ga k * (1 - ga))) by ring.
  rewrite IH. ring.
Qed.

Lemma discount_rewards_repeat (args : arguments) (c : R) (n : nat) :
  discount_rewards args (repeat c n) =
  map (fun t => c * geometric (Q2R (arg_gamma args)) (n - t)) (seq 0 n).
Proof.
  induction n as [| n IH]; [reflexivity |].
  cbn [repeat]. rewrite discount_rewards_cons, IH.
  cbn [seq map]. rewrite <- seq_shift, map_map. cbn [Nat.sub].
  f_equal. cbn [geometric].
  destruct n as [| n]; cbn [seq map hd geometric Nat.sub]; ring.
Qed.

Lemma discount_rewards_no_discount (args : arguments) (rs : list R) :
  Q2R (arg_gamma args) = 0 -> discount_rewards args rs = rs.
Proof.
  intros Hg. induction rs as [| r rs IH]; [reflexivity |].
  rewrite discount_rewards_cons, IH, Hg. f_equal. ring.
Qed.

(** The returns of an episode whose every reward is [c] (CartPole pays 1 at
    every step): at position [t] of [n] the return is
    [c * (1 + gamma + ... + gamma^(n-t-1))], and that sum times
    [1 - gamma] is [1 - gamma^(n-t)].  With discount 0 the returns of any
    episode are its rewards. *)
Theorem discount_rewards_constant (args : arguments) (c : R) (n : nat) :
  discount_rewards args (repeat c n) =
    map (fun t => c * geometric (Q2R (arg_gamma args)) (n - t)) (seq 0 n) /\
  (forall k, geometric (Q2R (arg_gamma args)) k * (1 - Q2R (arg_gamma args)) =
             1 - Q2R (arg_gamma args) ^ k) /\
  (forall rs, Q2R (arg_gamma args) = 0 -> discount_rewards args rs = rs).
Proof.
  split; [apply discount_rewards_repeat | split].
  - intros k. apply geometric_closed.
  - intros rs. apply discount_rewards_no_discount.
Qed.

(** With a discount in [0,1) and rewards between 0 and [b], every return is
    between 0 and [b / (1 - gamma)]. *)
Theorem discount_rewards_bounded (args : arguments) (rs : list R) (b : R) :
  0 <= Q2R (arg_gamma args) < 1 ->
  Forall (fun r => 0 <= r <= b) rs ->
  Forall (fun G => 0 <= G /\ G * (1 - Q2R (arg_gamma args)) <= b)
         (discount_rewards args rs).
Proof.
  intros Hg Hrs. induction Hrs as [| r rs Hr Hrs IH]; [constructor |].
  rewrite discount_rewards_cons. constructor; [| exact IH].
  set (ga := Q2R (arg_gamma args)) in *.
  assert (Hhd : 0 <= hd 0 (discount_rewards args rs) /\
                hd 0 (discount_rewards args rs) * (1 - ga) <= b).
  { destruct (discount_rewards args rs) as [| G Gs]; cbn [hd].
    - split; lra.
    - now inversion IH. }
  destruct Hhd as [H0 H1]. set (G := hd 0 (discount_rewards args rs)) in *.
  assert (0 <= ga * G) by (apply Rmult_le_pos; lra).
  split; [lra |].
  replace ((r + ga * G) * (1 - ga)) with (r * (1 - ga) + ga * (G * (1 - ga))) by ring.
  assert (r * (1 - ga) <= b * (1 - ga)) by (apply Rmult_le_compat_r; lra).
  assert (ga * (G * (1 - ga)) <= ga * b) by (apply Rmult_le_compat_l; lra).
  lra.
Qed.

Lemma discount_rewards_bounded_witness :
  Forall (fun G => 0 <= G /\ G * (1 - Q2R (arg_gamma default_args)) <= 1)
         (discount_rewards default_args [1; 1; 1]).
Proof.
  apply (discount_rewards_bounded default_args [1; 1; 1] 1).
  - cbn [default_args arg_gamma]. unfold Q2R. simpl. lra.
  - repeat constructor; lra.
Defined.

(** torch: the global generator, sampling from a categorical distribution,
    the initialisation of a linear layer, automatic differentiation and the
    Adam update of one layer. *)
Class Torch := {
  trng : Type;
  torch_seed : Z -> trng;
  sample : trng -> list R -> nat * trng;
  linear_init : trng -> nat -> nat -> linear * trng;
  gradT : Type;
  grad_zeros : gradT -> gradT;
  grad_add : gradT -> gradT -> gradT;
  autograd : (parameters -> R) -> parameters -> layer -> option gradT;
  optT : Type;
  adam_init : optT;
  adam_update : R -> optT -> layer -> gradT -> linear -> optT * linear
}.

(** numpy: the global generator behind [np.random.randint]. *)
Class Numpy := {
  nrng : Type;
  np_seed : option Z -> nrng;
  np_randint : nrng -> Z * nrng
}.

(** gym: the environment. *)
Class Gym := {
  envT : Type;
  gym_make : string -> result envT;
  env_seed : envT -> option Z -> envT;
  observation_dim : envT -> nat;
  action_n : envT -> nat;
  env_reset : envT -> result (list R * envT);
  env_step : envT -> nat -> result (list R * R * bool * envT)
}.

Section Harness.

Context {torch : Torch} {numpy : Numpy} {gym : Gym}.

#[local] Set Default Proof Using "Type".

Record world := mkWorld {
  torch_rng : trng;
  np_rng : nrng;
  log : list event
}.

(** State passing with exceptions: the state survives a raise. *)
Definition M (A : Type) : Type := world -> world * result A.

Definition ret {A} (a : A) : M A := fun w => (w, Ok a).

Definition bind {A B} (m : M A) (k : A -> M B) : M B :=
  fun w =>
    match m w with
    | (w', Ok a) => k a w'
    | (w', Raise e) => (w', Raise e)
    | (w', OutOfFuel) => (w', OutOfFuel)
    end.

Definition raise {A} (e : exn) : M A := fun w => (w, Raise e).

Definition lift {A} (r : result A) : M A := fun w => (w, r).

Definition emit (e : event) : M unit :=
  fun w => (mkWorld (torch_rng w) (np_rng w) (log w ++ [e]), Ok tt).

Definition assert (b : bool) : M unit :=
  if b then ret tt else raise AssertionError.

Notation "x <- m ;; k" := (bind m (fun x => k))
  (at level 61, m at next level, right associativity).
Notation "m ;;; k" := (bind m (fun _ => k))
  (at level 61, right associativity).

(** *** The model *)

Record policy := mkPolicy {
  agent_tag : string;            (* selects [self.backprop] *)
  params : parameters;
  grads : layer -> option gradT; (* the [.grad] of each layer's parameters *)
  opt_state : optT;
  lr : R;
  actions : list entry;
  rewards : list R
}.

(** [Policy.__init__]. *)
Definition Policy (agent : string) (input_dim output_dim hidden_size : nat) (alpha : R)
  : M policy :=
  fun w =>
    let (h, g1) := linear_init (torch_rng w) input_dim hidden_size in
    let (a, g2) := linear_init g1 hidden_size output_dim in
    let (v, g3) := linear_init g2 hidden_size 1 in
    (mkWorld g3 (np_rng w) (log w),
     Ok (mkPolicy agent (mkParams h a v) (fun _ => None) adam_init alpha [] [])).

(** [choose_action].  The conversion of the observation to a tensor and
    the construction of [Categorical(probs)] always succeed here: the
    probabilities are real numbers that sum to 1.  In the code
    [Categorical] raises ValueError when they hold nan, which happens once
    the parameters are nan (after the update of a one-step episode). *)
Definition choose_action (model : policy) (state : list R) : M (nat * policy) :=
  fun w =>
    let (probs, _) := forward (params model) state in
    let (action, g) := sample (torch_rng w) probs in
    (mkWorld g (np_rng w) (log w),
     Ok (action,
         mkPolicy (agent_tag model) (params model) (grads model) (opt_state model) (lr model)
                  (actions model ++ [(state, action)]) (rewards model))).

(** [self.optimizer.zero_grad()], [loss.backward()], [self.optimizer.step()]. *)
Definition zero_grad (gs : layer -> option gradT) : layer -> option gradT :=
  fun l => option_map grad_zeros (gs l).

Definition backward (loss : parameters -> R) (p : parameters) (gs : layer -> option gradT)
  : layer -> option gradT :=
  fun l =>
    match autograd loss p l, gs l with
    | None, g => g
    | Some d, None => Some d
    | Some d, Some g => Some (grad_add g d)
    end.

Definition step_layer (rate : R) (gs : layer -> option gradT) (st : optT * parameters)
  (l : layer) : optT * parameters :=
  match gs l with
  | None => st
  | Some g =>
      let (o, x) := adam_update rate (fst st) l g (get_layer (snd st) l) in
      (o, set_layer (snd st) l x)
  end.

Definition optimizer_step (rate : R) (o : optT) (gs : layer -> option gradT) (p : parameters)
  : optT * parameters :=
  fold_left (step_layer rate gs) [Hidden; ActionHead; ValueHead] (o, p).

(** [torch.stack(losses).sum()]; [torch.stack] raises on an empty list. *)
Definition stack_sum (losses : list (parameters -> R)) : result (parameters -> R) :=
  match losses with
  | [] => Raise RuntimeError
  | _ => Ok (fun p => vsum (map (fun f => f p) losses))
  end.

Definition and_then {A B : Type} (r : result A) (k : A -> result B) : result B :=
  match r with
  | Ok a => k a
  | Raise e => Raise e
  | OutOfFuel => OutOfFuel
  end.

(** The three optimizer calls and the two [del] statements that end
    [backprop_rf] and [backprop_ac]. *)
Definition update (model : policy) (loss : parameters -> R) : policy :=
  let gs := backward loss (params model) (zero_grad (grads model)) in
  let r := optimizer_step (lr model) (opt_state model) gs (params model) in
  mkPolicy (agent_tag model) (snd r) gs (fst r) (lr model) [] [].

Definition backprop_rf (args : arguments) (model : policy) : result policy :=
  let returns := normalize (discount_rewards args (rewards model)) in
  let policy_losses :=
    map (fun (x : entry * R) => fun p => - log_prob p (fst x) * snd x)
        (combine (actions model) returns) in
  and_then (stack_sum policy_losses) (fun loss => Ok (update model loss)).

(** In [backprop_ac] the advantage uses [value.item()], a number: the value
    at the parameters of the forward pass, which are the current ones since
    the buffers are emptied by every update. *)
Definition backprop_ac (args : arguments) (model : policy) : result policy :=
  let returns := normalize (discount_rewards args (rewards model)) in
  let items := combine (actions model) returns in
  let policy_losses :=
    map (fun (x : entry * R) =>
           let advantage := snd x - value (params model) (fst x) in
           fun p => - log_prob p (fst x) * advantage) items in
  let value_losses :=
    map (fun (x : entry * R) => fun p => smooth_l1_loss (value p (fst x)) (snd x)) items in
  and_then (stack_sum policy_losses) (fun pl =>
  and_then (stack_sum value_losses) (fun vl =>
  Ok (update model (fun p => pl p + vl p)))).

Definition backprop (args : arguments) (model : policy) : result policy :=
  if String.eqb (agent_tag model) "ac" then backprop_ac args model
  else backprop_rf args model.

(** *** Runs *)

Definition Qltb (x y : Q) : bool := negb (Qle_bool y x).

Definition with_reward (model : policy) (r : R) : policy :=
  mkPolicy (agent_tag model) (params model) (grads model) (opt_state model) (lr model)
           (actions model) (rewards model ++ [r]).

(** The [while not done] loop of one episode; [fuel] bounds the number of
    iterations the model follows. *)
Fixpoint rollout (fuel : nat) (env : envT) (model : policy) (state : list R) (steps : nat)
  : M (envT * policy * nat) :=
  match fuel with
  | O => lift OutOfFuel
  | S fuel' =>
      am <- choose_action model state ;;
      r <- lift (env_step env (fst am)) ;;
      let '(state', reward, done, env') := r in
      let model' := with_reward (snd am) reward in
      if (done : bool) then ret (env', model', S steps)
      else rollout fuel' env' model' state' (S steps)
  end.

(** The body of [for episode in range(args.episodes)].  Drawing the
    environment ([env.render()]) and the text of the printed line are left
    out; the line is printed when [episode % args.update_every == 0], which
    raises when [args.update_every] is 0. *)
Definition run_episode (fuel : nat) (args : arguments)
  (st : envT * policy * list nat) (episode : nat) : M (envT * policy * list nat) :=
  let '(env, model, scores) := st in
  r0 <- lift (env_reset env) ;;
  out <- rollout fuel (snd r0) model (fst r0) 0 ;;
  let '(env', model', steps) := out in
  let scores' := scores ++ [steps] in
  emit Backprop ;;;
  model'' <- lift (backprop args model') ;;
  (if (arg_update_every args =? 0)%nat then raise ZeroDivisionError
   else if (episode mod arg_update_every args =? 0)%nat then emit (Report episode steps)
   else ret tt) ;;;
  ret (env', model'', scores').

Fixpoint for_each {S : Type} (body : S -> nat -> M S) (xs : list nat) (s : S) : M S :=
  match xs with
  | [] => ret s
  | x :: xs' => s' <- body s x ;; for_each body xs' s'
  end.

(** [one_run]; the parameter [seed] is not used by the body.  The reads
    [env.observation_space.shape[0]] and [env.action_space.n] are the total
    functions [observation_dim] and [action_n] of the environment made, and
    [env.render()] is left out: an exception of one of these three has no
    counterpart here. *)
Definition one_run (fuel : nat) (args : arguments)
  (agent : string) (hidden_size : nat) (alpha : Q) (seed : option Z) : M (list nat) :=
  assert (Qle_bool 0 (arg_gamma args) && Qle_bool (arg_gamma args) 1) ;;;
  assert (Qltb 0 alpha) ;;;
  emit (Make (arg_env args)) ;;;
  env0 <- lift (gym_make (arg_env args)) ;;
  let env := env_seed env0 (arg_seed args) in
  model <- Policy agent (observation_dim env) (action_n env) hidden_size (Q2R alpha) ;;
  out <- for_each (run_episode fuel args) (seq 0 (arg_episodes args)) (env, model, []) ;;
  ret (snd out).

Fixpoint map_m {A B : Type} (f : A -> M B) (xs : list A) : M (list B) :=
  match xs with
  | [] => ret []
  | x :: xs' => y <- f x ;; ys <- map_m f xs' ;; ret (y :: ys)
  end.

Definition randint : M Z :=
  fun w => let (z, g) := np_randint (np_rng w) in (mkWorld (torch_rng w) g (log w), Ok z).

(** The body of the innermost loop of [runs]. *)
Definition seeded_run (fuel : nat) (args : arguments)
  (agent : string) (hidden_size : nat) (alpha : Q) (run : nat) : M (list nat) :=
  seed <- randint ;;
  emit (Announce agent hidden_size alpha) ;;;
  one_run fuel args agent hidden_size alpha (Some seed).

(** [runs]: the tensor [steps], filled cell by cell in the order of the
    three nested loops. *)
Definition runs (fuel : nat) (args : arguments)
  (agent : string) (sizes : list nat) (alphas : list Q)
  : M (list (list (list (list nat)))) :=
  map_m (fun hidden_size =>
    map_m (fun alpha =>
      map_m (seeded_run fuel args agent hidden_size alpha) (seq 0 (arg_runs args)))
      alphas)
    sizes.

(** The state in which [main] calls [runs]: [np.random.seed(args.seed)],
    and [torch.manual_seed(args.seed)] when a seed is given ([entropy] is
    the state of torch's generator otherwise). *)
Definition main_world (args : arguments) (entropy : trng) : world :=
  mkWorld (match arg_seed args with Some z => torch_seed z | None => entropy end)
          (np_seed (arg_seed args)) [].

(** The two calls of [main] when no saved data is loaded. *)
Definition main_runs (fuel : nat) (args : arguments)
  : M (list (list (list (list nat))) * list (list (list (list nat)))) :=
  steps_rf <- runs fuel args "rf" (arg_hidden_size args) (arg_alphas args) ;;
  steps_ac <- runs fuel args "ac" (arg_hidden_size args) (arg_alphas args) ;;
  ret (steps_rf, steps_ac).

(** *** C6: the buffers after an update *)

Lemma update_buffers (model : policy) (loss : parameters -> R) :
  actions (update model loss) = [] /\ rewards (update model loss) = [].
Proof.
  unfold update. split; reflexivity.
Qed.

Lemma stack_sum_ok (losses : list (parameters -> R)) :
  losses <> [] ->
  stack_sum losses = Ok (fun p => vsum (map (fun f => f p) losses)).
Proof. destruct losses; [contradiction | reflexivity]. Qed.

Lemma stack_sum_cases (losses : list (parameters -> R)) :
  stack_sum losses = Raise RuntimeError \/
  stack_sum losses = Ok (fun p => vsum (map (fun f => f p) losses)).
Proof. destruct losses; [left | right]; reflexivity. Qed.

Lemma items_nonempty (args : arguments) (model : policy) :
  actions model <> [] -> rewards model <> [] ->
  combine (actions model) (normalize (discount_rewards args (rewards model))) <> [].
Proof.
  intros Ha Hr H. apply (f_equal (@length _)) in H.
  rewrite length_combine, normalize_length, discount_rewards_length in H.
  destruct (actions model); [contradiction |].
  destruct (rewards model); [contradiction |]. discriminate.
Qed.

Lemma map_nonempty {A B} (f : A -> B) (l : list A) : l <> [] -> map f l <> [].
Proof. destruct l; [contradiction | discriminate]. Qed.

(** C6.  Whenever [backprop] returns, in either mode, the [actions] buffer
    and the [rewards] list of the model are empty; and it does return when
    the two buffers are not empty, as after the steps of an episode (it
    never loops). *)
Theorem backprop_clears_buffers (args : arguments) (model : policy) :
  (forall model', backprop args model = Ok model' ->
     actions model' = [] /\ rewards model' = []) /\
  backprop args model <> OutOfFuel /\
  (actions model <> [] -> rewards model <> [] ->
     exists model', backprop args model = Ok model').
Proof.
  unfold backprop, backprop_ac, backprop_rf, and_then.
  set (items := combine (actions model) (normalize (discount_rewards args (rewards model)))).
  set (pl_ac := map _ items). set (vl := map _ items). set (pl_rf := map _ items).
  split; [| split].
  - intros model'.
    destruct (String.eqb (agent_tag model) "ac").
    + destruct (stack_sum_cases pl_ac) as [-> | ->]; [discriminate |].
      destruct (stack_sum_cases vl) as [-> | ->]; [discriminate |].
      intros [= <-]. apply update_buffers.
    + destruct (stack_sum_cases pl_rf) as [-> | ->]; [discriminate |].
      intros [= <-]. apply update_buffers.
  - destruct (String.eqb (agent_tag model) "ac").
    + destruct (stack_sum_cases pl_ac) as [-> | ->]; [discriminate |].
      destruct (stack_sum_cases vl) as [-> | ->]; discriminate.
    + destruct (stack_sum_cases pl_rf) as [-> | ->]; discriminate.
  - intros Ha Hr.
    pose proof (items_nonempty args model Ha Hr) as Hi. fold items in Hi.
    destruct (String.eqb (agent_tag model) "ac").
    + rewrite (stack_sum_ok pl_ac), (stack_sum_ok vl) by now apply map_nonempty.
      eexists. reflexivity.
    + rewrite (stack_sum_ok pl_rf) by now apply map_nonempty.
      eexists. reflexivity.
Qed.

(** *** C10: REINFORCE and the value head *)

(** What the code relies on from automatic differentiation: a layer whose
    parameters the loss does not depend on receives no gradient. *)
Definition autograd_respects_graph : Prop :=
  forall (loss : parameters -> R) (p : parameters) (l : layer),
    (forall x, loss (set_layer p l x) = loss p) -> autograd loss p l = None.

(** The models a run can hold: the one built by [Policy], and the results of
    [choose_action], of appending a reward and of [backprop]. *)
Inductive reachable (args : arguments) (m0 : policy) : policy -> Prop :=
| reach_init : reachable args m0 m0
| reach_action (m : policy) (state : list R) (w w' : world) (a : nat) (m' : policy) :
    reachable args m0 m ->
    choose_action m state w = (w', Ok (a, m')) ->
    reachable args m0 m'
| reach_reward (m : policy) (r : R) :
    reachable args m0 m -> reachable args m0 (with_reward m r)
| reach_backprop (m m' : policy) :
    reachable args m0 m -> backprop args m = Ok m' -> reachable args m0 m'.

Lemma log_prob_value_head (p : parameters) (x : linear) (e : entry) :
  log_prob (set_layer p ValueHead x) e = log_prob p e.
Proof. reflexivity. Qed.

Lemma optimizer_step_value_head (rate : R) (o : optT) (gs : layer -> option gradT)
  (p : parameters) :
  gs ValueHead = None ->
  value_head (snd (optimizer_step rate o gs p)) = value_head p.
Proof.
  intros Hv. unfold optimizer_step. cbn [fold_left].
  unfold step_layer at 1. rewrite Hv.
  unfold step_layer at 1.
  destruct (gs ActionHead) as [ga |];
    unfold step_layer; destruct (gs Hidden) as [gh |]; cbn [fst snd];
    repeat match goal with
           | |- context [adam_update ?a ?b ?c ?d ?e] => destruct (adam_update a b c d e)
           end;
    reflexivity.
Qed.

Lemma reinforce_update (model : policy) (items : list (entry * R)) :
  autograd_respects_graph ->
  grads model ValueHead = None ->
  let loss := fun p => vsum (map (fun f : parameters -> R => f p)
                (map (fun (x : entry * R) => fun p => - log_prob p (fst x) * snd x) items)) in
  value_head (params (update model loss)) = value_head (params model) /\
  grads (update model loss) ValueHead = None /\
  agent_tag (update model loss) = agent_tag model.
Proof.
  intros Hgraph Hg loss.
  assert (Hnone : backward loss (params model) (zero_grad (grads model)) ValueHead = None).
  { unfold backward. rewrite Hgraph.
    - unfold zero_grad. now rewrite Hg.
    - intros x. unfold loss. f_equal. rewrite !map_map. apply map_ext.
      intros e. now rewrite log_prob_value_head. }
  unfold update.
  pose proof (optimizer_step_value_head (lr model) (opt_state model) _ (params model) Hnone)
    as Hstep.
  cbn [params grads agent_tag]. auto.
Qed.

(** C10.  If automatic differentiation gives no gradient to a layer the loss
    does not depend on, then for a model built by [Policy] with an agent
    other than ['ac'], every model the run can reach -- through
    [choose_action], appended rewards and any number of [backprop] calls --
    has the value head of the model as built, and the value head never
    holds a gradient. *)
Theorem reinforce_keeps_value_head (args : arguments) (agent : string)
  (input_dim output_dim hidden_size : nat) (alpha : R) (w w' : world) (m0 m : policy) :
  autograd_respects_graph ->
  agent <> "ac"%string ->
  Policy agent input_dim output_dim hidden_size alpha w = (w', Ok m0) ->
  reachable args m0 m ->
  value_head (params m) = value_head (params m0) /\ grads m ValueHead = None.
Proof.
  intros Hgraph Hagent Hinit Hreach.
  assert (H0 : agent_tag m0 = agent /\ grads m0 ValueHead = None).
  { unfold Policy in Hinit.
    destruct (linear_init (torch_rng w) input_dim hidden_size) as [h g1].
    destruct (linear_init g1 hidden_size output_dim) as [a g2].
    destruct (linear_init g2 hidden_size 1) as [v g3].
    injection Hinit as _ <-. split; reflexivity. }
  destruct H0 as [Htag Hgrad].
  enough (value_head (params m) = value_head (params m0) /\
          grads m ValueHead = None /\ agent_tag m = agent) by tauto.
  induction Hreach as [| m state w1 w2 a m' Hr IH Hc | m r Hr IH | m m' Hr IH Hb].
  - auto.
  - unfold choose_action in Hc.
    destruct (forward (params m) state) as [probs v].
    destruct (sample (torch_rng w1) probs) as [action g].
    injection Hc as _ _ <-. exact IH.
  - exact IH.
  - destruct IH as (IHv & IHg & IHt).
    unfold backprop in Hb. rewrite IHt in Hb.
    destruct (String.eqb_spec agent "ac") as [E | _]; [contradiction |].
    unfold backprop_rf, and_then in Hb.
    destruct (stack_sum_cases
                (map (fun (x : entry * R) => fun p => - log_prob p (fst x) * snd x)
                     (combine (actions m) (normalize (discount_rewards args (rewards m))))))
      as [E | E]; rewrite E in Hb; [discriminate |].
    injection Hb as <-.
    destruct (reinforce_update m
                (combine (actions m) (normalize (discount_rewards args (rewards m))))
                Hgraph IHg) as (Hv & Hg' & Ht').
    repeat split; congruence.
Qed.

(** *** How exceptions travel *)

Lemma bind_ok {A B} (m : M A) (k : A -> M B) (w w' : world) (a : A) :
  m w = (w', Ok a) -> bind m k w = k a w'.
Proof. intros H. unfold bind. now rewrite H. Qed.

Lemma bind_raise {A B} (m : M A) (k : A -> M B) (w w' : world) (e : exn) :
  m w = (w', Raise e) -> bind m k w = (w', Raise e).
Proof. intros H. unfold bind. now rewrite H. Qed.

Lemma for_each_raise {S : Type} (body : S -> nat -> M S) (xs1 : list nat) :
  forall (x : nat) (xs2 : list nat) (s s1 : S) (w w1 w2 : world) (e : exn),
  for_each body xs1 s w = (w1, Ok s1) ->
  body s1 x w1 = (w2, Raise e) ->
  for_each body (xs1 ++ x :: xs2) s w = (w2, Raise e).
Proof.
  induction xs1 as [| y xs1 IH]; intros x xs2 s s1 w w1 w2 e Hpre Hx.
  - injection Hpre as <- <-. cbn [app for_each]. now apply bind_raise.
  - cbn [app for_each] in *. unfold bind in *.
    destruct (body s y w) as [w' [s' | e' |]]; try discriminate.
    eapply IH; eauto.
Qed.

Lemma map_m_raise {A B : Type} (f : A -> M B) (xs1 : list A) :
  forall (x : A) (xs2 : list A) (w w1 w2 : world) (ys : list B) (e : exn),
  map_m f xs1 w = (w1, Ok ys) ->
  f x w1 = (w2, Raise e) ->
  map_m f (xs1 ++ x :: xs2) w = (w2, Raise e).
Proof.
  induction xs1 as [| y xs1 IH]; intros x xs2 w w1 w2 ys e Hpre Hx.
  - injection Hpre as <- <-. cbn [app map_m]. now apply bind_raise.
  - cbn [app map_m] in *. unfold bind in *.
    destruct (f y w) as [w' [b | e' |]]; try discriminate.
    destruct (map_m f xs1 w') as [w'' [bs | e' |]] eqn:E; try discriminate.
    unfold ret in Hpre. injection Hpre as <- <-.
    now rewrite (IH x xs2 w' w'' w2 bs e E Hx).
Qed.

Lemma choose_action_log (model : policy) (state : list R) (w : world) :
  log (fst (choose_action model state w)) = log w /\
  exists a, snd (choose_action model state w) = Ok a.
Proof.
  unfold choose_action.
  destruct (forward (params model) state) as [probs v].
  destruct (sample (torch_rng w) probs) as [action g].
  split; [reflexivity | eexists; reflexivity].
Qed.

Lemma rollout_log (fuel : nat) :
  forall (env : envT) (model : policy) (state : list R) (steps : nat) (w : world),
  log (fst (rollout fuel env model state steps w)) = log w.
Proof.
  induction fuel as [| fuel IH]; intros env model state steps w; [reflexivity |].
  cbn [rollout]. unfold bind, lift.
  destruct (choose_action_log model state w) as (Hl & a & Ha).
  destruct (choose_action model state w) as [w1 r1]. cbn [fst snd] in *. subst r1.
  destruct (env_step env (fst a)) as [[[[state' reward] done] env'] | e |];
    try (cbn [fst]; assumption).
  destruct done; [cbn [ret fst]; assumption |].
  rewrite IH. assumption.
Qed.

(** *** C9: a failing environment *)

(** An exception raised while an episode is rolled out leaves [run_episode]
    at once, without an event in the log; an episode that raises makes
    [one_run] raise; and a run that raises makes [runs] raise, in the state
    of that moment. *)
Lemma raise_propagates (fuel : nat) (args : arguments) (agent : string) :
  (forall (env env0 : envT) (model : policy) (scores : list nat) (episode : nat)
          (state : list R) (w w' : world) (e : exn),
     env_reset env = Ok (state, env0) ->
     rollout fuel env0 model state 0 w = (w', Raise e) ->
     run_episode fuel args (env, model, scores) episode w = (w', Raise e) /\
     log w' = log w) /\
  (forall (hidden_size : nat) (alpha : Q) (seed : option Z) (env0 : envT) (model : policy)
          (xs1 : list nat) (x : nat) (xs2 : list nat) (st1 : envT * policy * list nat)
          (w w0 w1 w2 : world) (e : exn),
     Qle_bool 0 (arg_gamma args) && Qle_bool (arg_gamma args) 1 = true ->
     Qltb 0 alpha = true ->
     gym_make (arg_env args) = Ok env0 ->
     Policy agent (observation_dim (env_seed env0 (arg_seed args)))
            (action_n (env_seed env0 (arg_seed args))) hidden_size (Q2R alpha)
            (fst (emit (Make (arg_env args)) w)) = (w0, Ok model) ->
     seq 0 (arg_episodes args) = xs1 ++ x :: xs2 ->
     for_each (run_episode fuel args) xs1 (env_seed env0 (arg_seed args), model, []) w0 =
       (w1, Ok st1) ->
     run_episode fuel args st1 x w1 = (w2, Raise e) ->
     one_run fuel args agent hidden_size alpha seed w = (w2, Raise e)) /\
  (forall (sizes1 : list nat) (hidden_size : nat) (sizes2 : list nat)
          (alphas1 : list Q) (alpha : Q) (alphas2 : list Q) (k later : nat)
          (w w1 w2 w3 w4 : world) t1 t2 t3 (e : exn),
     arg_runs args = (k + S later)%nat ->
     runs fuel args agent sizes1 (alphas1 ++ alpha :: alphas2) w = (w1, Ok t1) ->
     map_m (fun a => map_m (seeded_run fuel args agent hidden_size a)
                           (seq 0 (arg_runs args))) alphas1 w1 = (w2, Ok t2) ->
     map_m (seeded_run fuel args agent hidden_size alpha) (seq 0 k) w2 = (w3, Ok t3) ->
     seeded_run fuel args agent hidden_size alpha k w3 = (w4, Raise e) ->
     runs fuel args agent (sizes1 ++ hidden_size :: sizes2) (alphas1 ++ alpha :: alphas2) w =
       (w4, Raise e)).
Proof.
  split; [| split].
  - intros env env0 model scores episode state w w' e Hreset Hroll.
    split.
    + unfold run_episode. rewrite Hreset. unfold bind at 1. unfold lift at 1.
      cbn [fst snd]. now apply bind_raise.
    + pose proof (rollout_log fuel env0 model state 0 w) as H.
      now rewrite Hroll in H.
  - intros hidden_size alpha seed env0 model xs1 x xs2 st1 w w0 w1 w2 e
           Hgamma Halpha Hmake Hpol Hseq Hpre Hx.
    unfold one_run. rewrite Hgamma, Halpha, Hmake.
    cbn [assert]. unfold bind at 1. cbn [ret]. unfold bind at 1. cbn [ret].
    unfold bind at 1. unfold emit at 1. unfold bind at 1. unfold lift at 1.
    unfold emit in Hpol. cbn [fst] in Hpol.
    unfold bind at 1. rewrite Hpol.
    apply bind_raise. rewrite Hseq.
    eapply for_each_raise; eauto.
  - intros sizes1 hidden_size sizes2 alphas1 alpha alphas2 k later
           w w1 w2 w3 w4 t1 t2 t3 e Hruns Hsizes Halphas Hk He.
    unfold runs in *.
    eapply map_m_raise; [exact Hsizes |].
    eapply map_m_raise; [exact Halphas |].
    rewrite Hruns, seq_app. cbn [seq Nat.add].
    eapply map_m_raise; [exact Hk | exact He].
Qed.

(** C9 (as amended).  Take any run of the grid, reached after the earlier
    runs returned, and any episode of it, reached after its earlier episodes
    returned.  If the environment raises while that episode is rolled out,
    then nothing is logged after the episode began -- [model.backprop()] is
    not called -- and [runs] raises the same exception in the state of that
    moment: it returns no tensor and starts no later run. *)
Theorem env_failure_aborts_runs (fuel : nat) (args : arguments) (agent : string)
  (sizes1 : list nat) (hidden_size : nat) (sizes2 : list nat)
  (alphas1 : list Q) (alpha : Q) (alphas2 : list Q) (k later : nat)
  (w w1 w2 w3 wa w4 w5 w6 : world)
  (t1 : list (list (list (list nat)))) (t2 : list (list (list nat))) (t3 : list (list nat))
  (z : Z) (env0 env1 env2 : envT) (model model1 : policy) (scores1 : list nat)
  (xs1 : list nat) (x : nat) (xs2 : list nat) (state : list R) (e : exn) :
  arg_runs args = (k + S later)%nat ->
  runs fuel args agent sizes1 (alphas1 ++ alpha :: alphas2) w = (w1, Ok t1) ->
  map_m (fun a => map_m (seeded_run fuel args agent hidden_size a)
                        (seq 0 (arg_runs args))) alphas1 w1 = (w2, Ok t2) ->
  map_m (seeded_run fuel args agent hidden_size alpha) (seq 0 k) w2 = (w3, Ok t3) ->
  randint w3 = (wa, Ok z) ->
  Qle_bool 0 (arg_gamma args) && Qle_bool (arg_gamma args) 1 = true ->
  Qltb 0 alpha = true ->
  gym_make (arg_env args) = Ok env0 ->
  Policy agent (observation_dim (env_seed env0 (arg_seed args)))
         (action_n (env_seed env0 (arg_seed args))) hidden_size (Q2R alpha)
         (fst (emit (Make (arg_env args))
                    (fst (emit (Announce agent hidden_size alpha) wa)))) = (w4, Ok model) ->
  seq 0 (arg_episodes args) = xs1 ++ x :: xs2 ->
  for_each (run_episode fuel args) xs1 (env_seed env0 (arg_seed args), model, []) w4 =
    (w5, Ok (env1, model1, scores1)) ->
  env_reset env1 = Ok (state, env2) ->
  rollout fuel env2 model1 state 0 w5 = (w6, Raise e) ->
  log w6 = log w5 /\
  runs fuel args agent (sizes1 ++ hidden_size :: sizes2) (alphas1 ++ alpha :: alphas2) w =
    (w6, Raise e).
Proof.
  intros Hruns Hsizes Halphas Hk Hrand Hgamma Halpha Hmake Hpol Hseq Hpre Hreset Hroll.
  destruct (raise_propagates fuel args agent) as (Hepisode & Hrun & Hgrid).
  destruct (Hepisode env1 env2 model1 scores1 x state w5 w6 e Hreset Hroll) as [Hx Hlog].
  split; [exact Hlog |].
  eapply Hgrid; eauto.
  unfold seeded_run. rewrite (bind_ok _ _ _ _ _ Hrand).
  unfold bind at 1. unfold emit at 1.
  eapply Hrun; eauto.
Qed.

(** *** C8: validation of the configuration *)

Lemma one_run_invalid (fuel : nat) (args : arguments) (agent : string)
  (hidden_size : nat) (alpha : Q) (seed : option Z) (w : world) :
  ~ (0 <= arg_gamma args /\ arg_gamma args <= 1)%Q \/ ~ (0 < alpha)%Q ->
  one_run fuel args agent hidden_size alpha seed w = (w, Raise AssertionError).
Proof.
  intros H. unfold one_run.
  destruct (Qle_bool 0 (arg_gamma args) && Qle_bool (arg_gamma args) 1) eqn:Eg.
  - destruct (Qltb 0 alpha) eqn:Ea.
    + exfalso. apply andb_prop in Eg. destruct Eg as [E1 E2].
      apply Qle_bool_iff in E1, E2.
      unfold Qltb in Ea. apply negb_true_iff in Ea.
      destruct H as [H | H]; [tauto |]. apply H.
      apply Qnot_le_lt. intros Hle. apply Qle_bool_iff in Hle. congruence.
    + reflexivity.
  - reflexivity.
Qed.

(** C8 (as amended).  Each run checks the discount and its own learning
    rate first: with a discount outside [0,1] or a learning rate that is not
    positive, [one_run] raises AssertionError before it does anything else.
    When the first point of the grid is invalid -- so whenever the discount
    is -- [runs] raises it having only announced the first run; no
    environment is made and nothing is trained. *)
Theorem config_checked_per_run (fuel : nat) (args : arguments) (agent : string)
  (hidden_size : nat) (sizes : list nat) (alpha : Q) (alphas : list Q)
  (seed : option Z) (w : world) :
  ~ (0 <= arg_gamma args /\ arg_gamma args <= 1)%Q \/ ~ (0 < alpha)%Q ->
  (0 < arg_runs args)%nat ->
  one_run fuel args agent hidden_size alpha seed w = (w, Raise AssertionError) /\
  exists w',
    runs fuel args agent (hidden_size :: sizes) (alpha :: alphas) w =
      (w', Raise AssertionError) /\
    log w' = log w ++ [Announce agent hidden_size alpha].
Proof.
  intros Hbad Hruns. split; [now apply one_run_invalid |].
  unfold runs. destruct (arg_runs args) as [| n]; [lia |].
  cbn [seq map_m]. unfold seeded_run, randint.
  destruct (np_randint (np_rng w)) as [z g] eqn:Ez.
  eexists. split.
  - unfold bind at 1. unfold bind at 1. unfold bind at 1. unfold bind at 1.
    rewrite Ez. unfold bind at 1. unfold emit at 1.
    rewrite one_run_invalid by exact Hbad. reflexivity.
  - reflexivity.
Qed.

(** The seed that [runs] draws for a run plays no part in it. *)
Lemma one_run_seed_unused (fuel : nat) (args : arguments) (agent : string)
  (hidden_size : nat) (alpha : Q) (seed seed' : option Z) :
  one_run fuel args agent hidden_size alpha seed =
  one_run fuel args agent hidden_size alpha seed'.
Proof. reflexivity. Qed.

(** *** The recorded step counts and the shape of the tensor *)

Lemma rollout_steps (fuel : nat) :
  forall (env : envT) (model : policy) (state : list R) (steps : nat)
         (w w' : world) (env' : envT) (model' : policy) (n : nat),
  rollout fuel env model state steps w = (w', Ok (env', model', n)) ->
  (steps < n)%nat.
Proof.
  induction fuel as [| fuel IH]; intros env model state steps w w' env' model' n H;
    [discriminate |].
  cbn [rollout] in H. unfold bind, lift in H.
  destruct (choose_action model state w) as [w1 [am | e |]]; try discriminate.
  destruct (env_step env (fst am)) as [[[[state' reward] done] env1] | e |];
    try discriminate.
  destruct done.
  - unfold ret in H. injection H as _ _ _ <-. lia.
  - apply IH in H. lia.
Qed.

Lemma run_episode_scores (fuel : nat) (args : arguments)
  (env : envT) (model : policy) (scores : list nat) (episode : nat)
  (w w' : world) (env' : envT) (model' : policy) (scores' : list nat) :
  run_episode fuel args (env, model, scores) episode w = (w', Ok (env', model', scores')) ->
  exists n, (1 <= n)%nat /\ scores' = scores ++ [n].
Proof.
  unfold run_episode. unfold bind, lift. intros H.
  destruct (env_reset env) as [r0 | e |]; try discriminate.
  destruct (rollout fuel (snd r0) model (fst r0) 0 w) as [w1 [[[env1 model1] n] | e |]] eqn:E;
    try discriminate.
  apply rollout_steps in E.
  unfold emit in H.
  destruct (backprop args model1) as [model2 | e |]; try discriminate.
  exists n. split; [lia |].
  destruct (arg_update_every args =? 0)%nat; [discriminate |].
  destruct (episode mod arg_update_every args =? 0)%nat;
    unfold ret, emit in H; now injection H as _ _ _ <-.
Qed.

Lemma for_each_scores (fuel : nat) (args : arguments) (xs : list nat) :
  forall (env : envT) (model : policy) (scores : list nat)
         (w w' : world) (env' : envT) (model' : policy) (scores' : list nat),
  for_each (run_episode fuel args) xs (env, model, scores) w =
    (w', Ok (env', model', scores')) ->
  exists new, scores' = scores ++ new /\ length new = length xs /\
              Forall (fun n => (1 <= n)%nat) new.
Proof.
  induction xs as [| x xs IH]; intros env model scores w w' env' model' scores' H.
  - injection H as _ _ _ <-. exists []. rewrite app_nil_r. repeat split. constructor.
  - cbn [for_each] in H. unfold bind in H.
    destruct (run_episode fuel args (env, model, scores) x w)
      as [w1 [[[env1 model1] scores1] | e |]] eqn:E; try discriminate.
    apply run_episode_scores in E. destruct E as (n & Hn & ->).
    apply IH in H. destruct H as (new & -> & Hlen & Hall).
    exists (n :: new). rewrite <- app_assoc. repeat split.
    + simpl. now rewrite Hlen.
    + now constructor.
Qed.

Lemma one_run_scores (fuel : nat) (args : arguments) (agent : string)
  (hidden_size : nat) (alpha : Q) (seed : option Z) (w w' : world) (scores : list nat) :
  one_run fuel args agent hidden_size alpha seed w = (w', Ok scores) ->
  length scores = arg_episodes args /\ Forall (fun n => (1 <= n)%nat) scores.
Proof.
  unfold one_run. intros H.
  destruct (Qle_bool 0 (arg_gamma args) && Qle_bool (arg_gamma args) 1); [| discriminate].
  destruct (Qltb 0 alpha); [| discriminate].
  cbn [assert] in H. unfold bind, ret, emit, lift in H.
  destruct (gym_make (arg_env args)) as [env0 | e |]; try discriminate.
  destruct (Policy agent _ _ hidden_size (Q2R alpha) _) as [w0 [model | e |]];
    try discriminate.
  destruct (for_each _ _ _ w0) as [w1 [[[env1 model1] scores1] | e |]] eqn:E;
    try discriminate.
  injection H as _ <-. cbn [snd].
  apply for_each_scores in E. destruct E as (new & -> & Hlen & Hall).
  rewrite length_seq in Hlen. now split.
Qed.

Lemma map_m_forall {A B : Type} (f : A -> M B) (P : B -> Prop) :
  (forall x w w' y, f x w = (w', Ok y) -> P y) ->
  forall (xs : list A) (w w' : world) (ys : list B),
  map_m f xs w = (w', Ok ys) -> length ys = length xs /\ Forall P ys.
Proof.
  intros Hf. induction xs as [| x xs IH]; intros w w' ys H.
  - injection H as _ <-. split; [reflexivity | constructor].
  - cbn [map_m] in H. unfold bind in H.
    destruct (f x w) as [w1 [y | e |]] eqn:E; try discriminate.
    destruct (map_m f xs w1) as [w2 [ys' | e |]] eqn:E'; try discriminate.
    unfold ret in H. injection H as _ <-.
    apply Hf in E. apply IH in E'. destruct E' as [Hlen Hall].
    split; [simpl; now rewrite Hlen | now constructor].
Qed.

(** The shape of the policy-gradient tensor: when [runs] returns, its
    result has one entry per hidden size, each with one entry per learning
    rate, each with [args.runs] runs of [args.episodes] step counts, and
    every step count is at least 1. *)
Theorem runs_shape (fuel : nat) (args : arguments) (agent : string)
  (sizes : list nat) (alphas : list Q) (w w' : world) (t : list (list (list (list nat)))) :
  runs fuel args agent sizes alphas w = (w', Ok t) ->
  length t = length sizes /\
  Forall (fun by_alpha =>
    length by_alpha = length alphas /\
    Forall (fun by_run =>
      length by_run = arg_runs args /\
      Forall (fun scores =>
        length scores = arg_episodes args /\
        Forall (fun n => (1 <= n)%nat) scores) by_run) by_alpha) t.
Proof.
  unfold runs. apply map_m_forall.
  intros hidden_size w1 w2 by_alpha. apply map_m_forall.
  intros alpha w3 w4 by_run H.
  apply (map_m_forall _ (fun scores => length scores = arg_episodes args /\
                                       Forall (fun n => (1 <= n)%nat) scores)) in H.
  - now rewrite length_seq in H.
  - intros run w5 w6 scores Hrun. unfold seeded_run, bind, randint, emit in Hrun.
    destruct (np_randint (np_rng w5)) as [z g].
    now apply one_run_scores in Hrun.
Qed.

(** *** What an episode does to the model and to the log *)

Lemma choose_action_eq (model : policy) (state : list R) (w : world) :
  choose_action model state w =
  let a := fst (sample (torch_rng w) (fst (forward (params model) state))) in
  (mkWorld (snd (sample (torch_rng w) (fst (forward (params model) state))))
           (np_rng w) (log w),
   Ok (a, mkPolicy (agent_tag model) (params model) (grads model) (opt_state model)
                   (lr model) (actions model ++ [(state, a)]) (rewards model))).
Proof.
  unfold choose_action.
  destruct (forward (params model) state) as [probs v]. cbn [fst].
  destruct (sample (torch_rng w) probs) as [action g]. reflexivity.
Qed.

Lemma rollout_buffers (fuel : nat) :
  forall (env : envT) (model : policy) (state : list R) (steps : nat)
         (w w' : world) (env' : envT) (model' : policy) (n : nat),
  rollout fuel env model state steps w = (w', Ok (env', model', n)) ->
  exists es rs,
    actions model' = actions model ++ es /\ rewards model' = rewards model ++ rs /\
    (length es + steps = n)%nat /\ length rs = length es /\ es <> [] /\
    params model' = params model /\ grads model' = grads model /\
    opt_state model' = opt_state model /\ lr model' = lr model /\
    agent_tag model' = agent_tag model /\
    np_rng w' = np_rng w /\ log w' = log w.
Proof.
  induction fuel as [| fuel IH]; intros env model state steps w w' env' model' n H;
    [discriminate |].
  cbn [rollout] in H. unfold bind, lift in H. rewrite choose_action_eq in H.
  cbv zeta in H. cbn [fst snd] in H.
  set (a := fst (sample (torch_rng w) (fst (forward (params model) state)))) in *.
  destruct (env_step env a) as [[[[state' reward] done] env1] | e |]; try discriminate.
  destruct done.
  - unfold ret in H. injection H as <- <- <- <-.
    exists [(state, a)], [reward].
    cbn [with_reward actions rewards params grads opt_state lr agent_tag np_rng log length].
    repeat split; try reflexivity. discriminate.
  - apply IH in H.
    destruct H as (es & rs & Ha & Hr & Hn & Hl & Hne & Hp & Hg & Ho & Hlr & Ht & Hnp & Hlog).
    cbn [with_reward actions rewards params grads opt_state lr agent_tag np_rng log] in *.
    exists ((state, a) :: es), (reward :: rs).
    rewrite Ha, Hr, <- !app_assoc. cbn [app length].
    repeat split; auto; try lia. discriminate.
Qed.

(** A rollout that returns has appended one entry to the [actions] buffer
    and one reward to the [rewards] list for each of its steps, after what
    the buffers held, and has made at least one step; it has not touched the
    parameters, the gradients, the optimizer, numpy's generator or the log. *)
Theorem rollout_fills_buffers (fuel : nat) (env : envT) (model : policy) (state : list R)
  (steps : nat) (w w' : world) (env' : envT) (model' : policy) (n : nat) :
  rollout fuel env model state steps w = (w', Ok (env', model', n)) ->
  (steps < n)%nat /\
  length (actions model') = (length (actions model) + (n - steps))%nat /\
  length (rewards model') = (length (rewards model) + (n - steps))%nat /\
  firstn (length (actions model)) (actions model') = actions model /\
  firstn (length (rewards model)) (rewards model') = rewards model /\
  params model' = params model /\ grads model' = grads model /\
  opt_state model' = opt_state model /\ lr model' = lr model /\
  agent_tag model' = agent_tag model /\
  np_rng w' = np_rng w /\ log w' = log w.
Proof.
  intros H. apply rollout_buffers in H.
  destruct H as (es & rs & Ha & Hr & Hn & Hl & Hne & Hrest).
  assert (0 < length es)%nat by (destruct es; [contradiction | simpl; lia]).
  rewrite Ha, Hr, !length_app.
  rewrite !firstn_app, !Nat.sub_diag, !firstn_all. cbn [firstn]. rewrite !app_nil_r.
  repeat split; try lia; apply Hrest.
Qed.

Lemma backprop_returns (args : arguments) (model : policy) :
  actions model <> [] -> rewards model <> [] ->
  exists model', backprop args model = Ok model' /\
                 actions model' = [] /\ rewards model' = [].
Proof.
  intros Ha Hr. pose proof (items_nonempty args model Ha Hr) as Hi.
  unfold backprop, backprop_ac, backprop_rf, and_then. cbv zeta.
  destruct (String.eqb (agent_tag model) "ac").
  - rewrite !stack_sum_ok by now apply map_nonempty.
    eexists. split; [reflexivity | apply update_buffers].
  - rewrite stack_sum_ok by now apply map_nonempty.
    eexists. split; [reflexivity | apply update_buffers].
Qed.

(** The update at the end of an episode does not fail: a rollout that
    returns has put at least one entry in each buffer, so the lists that
    [backprop] stacks are not empty and [backprop] returns a model, with both
    buffers emptied. *)
Theorem update_after_rollout (fuel : nat) (args : arguments) (env : envT) (model : policy)
  (state : list R) (steps : nat) (w w' : world) (env' : envT) (model' : policy) (n : nat) :
  rollout fuel env model state steps w = (w', Ok (env', model', n)) ->
  actions model' <> [] /\ rewards model' <> [] /\
  exists model'',
    backprop args model' = Ok model'' /\
    actions model'' = [] /\ rewards model'' = [].
Proof.
  intros H. apply rollout_buffers in H.
  destruct H as (es & rs & Ha & Hr & Hn & Hl & Hne & _).
  assert (Hactions : actions model' <> []).
  { rewrite Ha. destruct es; [contradiction |]. now destruct (actions model). }
  assert (Hrewards : rewards model' <> []).
  { rewrite Hr. destruct es; [contradiction |]. destruct rs; [discriminate |].
    now destruct (rewards model). }
  split; [exact Hactions | split; [exact Hrewards |]].
  now apply backprop_returns.
Qed.

Lemma rollout_raise (fuel : nat) :
  forall (env : envT) (model : policy) (state : list R) (steps : nat)
         (w w' : world) (e : exn),
  rollout fuel env model state steps w = (w', Raise e) ->
  exists env1 a, env_step env1 a = Raise e.
Proof.
  induction fuel as [| fuel IH]; intros env model state steps w w' e H; [discriminate |].
  cbn [rollout] in H. unfold bind, lift in H. rewrite choose_action_eq in H.
  cbv zeta in H. cbn [fst snd] in H.
  destruct (env_step env _) as [[[[state' reward] done] env1] | e0 |] eqn:E;
    try discriminate.
  - destruct done; [discriminate | eapply IH; eauto].
  - injection H as _ <-. eauto.
Qed.

(** The exceptions of the environment: an exception some call of
    [gym.make], [env.reset] or [env.step] raises. *)
Definition gym_raises (e : exn) : Prop :=
  (exists name, gym_make name = Raise e) \/
  (exists env, env_reset env = Raise e) \/
  (exists env a, env_step env a = Raise e).

Definition is_backprop (e : event) : bool :=
  match e with
  | Backprop => true
  | _ => false
  end.

(** What an episode that returns adds to the log: the update, and the
    printed line when the episode number is a multiple of
    [args.update_every]. *)
Definition episode_events (update_every : nat) (x : nat * nat) : list event :=
  Backprop ::
  (if (fst x mod update_every =? 0)%nat then [Report (fst x) (snd x)] else []).

Lemma run_episode_cases (fuel : nat) (args : arguments) (env : envT) (model : policy)
  (scores : list nat) (episode : nat) (w w' : world) (r : result (envT * policy * list nat)) :
  run_episode fuel args (env, model, scores) episode w = (w', r) ->
  match r with
  | Ok (env', model', scores') =>
      exists n, (1 <= n)%nat /\ scores' = scores ++ [n] /\
                arg_update_every args <> 0%nat /\
                log w' = log w ++ episode_events (arg_update_every args) (episode, n) /\
                np_rng w' = np_rng w /\ actions model' = [] /\ rewards model' = []
  | Raise e =>
      (e = ZeroDivisionError /\ arg_update_every args = 0%nat /\
       log w' = log w ++ [Backprop]) \/
      (gym_raises e /\ log w' = log w)
  | OutOfFuel => True
  end.
Proof.
  unfold run_episode, bind, lift. intros H.
  destruct (env_reset env) as [r0 | e |] eqn:Ereset.
  - destruct (rollout fuel (snd r0) model (fst r0) 0 w)
      as [w1 [[[env1 model1] n] | e |]] eqn:E.
    + apply rollout_buffers in E.
      destruct E as (es & rs & Ha & Hr & Hn & Hl & Hne & _ & _ & _ & _ & _ & Hnp & Hlog).
      destruct (backprop_returns args model1) as (model2 & Hb & Ha2 & Hr2).
      { rewrite Ha. destruct es; [contradiction |]. now destruct (actions model). }
      { rewrite Hr. destruct es; [contradiction |]. destruct rs; [discriminate |].
        now destruct (rewards model). }
      assert (Hpos : (1 <= n)%nat) by (destruct es; [contradiction | simpl in Hn; lia]).
      unfold emit in H. cbn [torch_rng np_rng log] in H. rewrite Hb in H.
      destruct (Nat.eqb_spec (arg_update_every args) 0) as [Hu | Hu].
      * unfold raise in H. injection H as <- <-. left.
        cbn [log]. rewrite Hlog. auto.
      * unfold episode_events. cbn [fst snd].
        destruct (episode mod arg_update_every args =? 0)%nat;
          unfold ret, emit in H; injection H as <- <-; exists n;
          cbn [log np_rng]; rewrite Hlog, Hnp; repeat split; auto; try lia;
          now rewrite <- app_assoc.
    + injection H as <- <-. right. split.
      * right. right. eapply rollout_raise; eauto.
      * pose proof (rollout_log fuel (snd r0) model (fst r0) 0 w) as Hl.
        now rewrite E in Hl.
    + injection H as <- <-. exact I.
  - injection H as <- <-. right. split; [| reflexivity]. right. left. eauto.
  - injection H as <- <-. exact I.
Qed.

Lemma for_each_cases (fuel : nat) (args : arguments) (xs : list nat) :
  forall (env : envT) (model : policy) (scores : list nat) (w w' : world)
         (r : result (envT * policy * list nat)),
  for_each (run_episode fuel args) xs (env, model, scores) w = (w', r) ->
  match r with
  | Ok (env', model', scores') =>
      exists new, scores' = scores ++ new /\ length new = length xs /\
                  (xs <> [] -> arg_update_every args <> 0%nat) /\
                  log w' = log w ++ flat_map (episode_events (arg_update_every args))
                                             (combine xs new) /\
                  np_rng w' = np_rng w
  | Raise e => (e = ZeroDivisionError /\ arg_update_every args = 0%nat) \/ gym_raises e
  | OutOfFuel => True
  end.
Proof.
  induction xs as [| x xs IH]; intros env model scores w w' r H.
  - cbn [for_each] in H. unfold ret in H. injection H as <- <-.
    exists []. rewrite !app_nil_r. repeat split. intros C. now contradiction C.
  - cbn [for_each] in H. unfold bind in H.
    destruct (run_episode fuel args (env, model, scores) x w) as [w1 r1] eqn:E1.
    apply run_episode_cases in E1.
    destruct r1 as [[[env1 model1] scores1] | e1 |].
    + destruct E1 as (n & Hn & -> & Hu & Hlog1 & Hnp1 & _).
      apply IH in H. destruct r as [[[env2 model2] scores2] | e2 |]; [| exact H | exact I].
      destruct H as (new & -> & Hlen & _ & Hlog & Hnp).
      exists (n :: new). rewrite <- app_assoc. cbn [app length combine flat_map].
      rewrite Hlog, Hlog1, Hnp, Hnp1, <- app_assoc.
      repeat split; auto.
    + injection H as <- <-. destruct E1 as [(-> & Hu & _) | [Hg _]]; auto.
    + injection H as <- <-. exact I.
Qed.

Lemma Policy_ok (agent : string) (input_dim output_dim hidden_size : nat) (alpha : R)
  (w : world) :
  exists g p,
    Policy agent input_dim output_dim hidden_size alpha w =
    (mkWorld g (np_rng w) (log w),
     Ok (mkPolicy agent p (fun _ => None) adam_init alpha [] [])).
Proof.
  unfold Policy.
  destruct (linear_init (torch_rng w) input_dim hidden_size) as [h g1].
  destruct (linear_init g1 hidden_size output_dim) as [a g2].
  destruct (linear_init g2 hidden_size 1) as [v g3].
  eexists. eexists. reflexivity.
Qed.

(** [one_run], with its two assertions decided. *)
Lemma one_run_valid (fuel : nat) (args : arguments) (agent : string)
  (hidden_size : nat) (alpha : Q) (seed : option Z) (w : world) :
  Qle_bool 0 (arg_gamma args) && Qle_bool (arg_gamma args) 1 = true ->
  Qltb 0 alpha = true ->
  one_run fuel args agent hidden_size alpha seed w =
  let w1 := mkWorld (torch_rng w) (np_rng w) (log w ++ [Make (arg_env args)]) in
  match gym_make (arg_env args) with
  | Ok env0 =>
      let env := env_seed env0 (arg_seed args) in
      match Policy agent (observation_dim env) (action_n env) hidden_size (Q2R alpha) w1 with
      | (w2, Ok model) =>
          match for_each (run_episode fuel args) (seq 0 (arg_episodes args))
                         (env, model, []) w2 with
          | (w3, Ok out) => (w3, Ok (snd out))
          | (w3, Raise e) => (w3, Raise e)
          | (w3, OutOfFuel) => (w3, OutOfFuel)
          end
      | (w2, Raise e) => (w2, Raise e)
      | (w2, OutOfFuel) => (w2, OutOfFuel)
      end
  | Raise e => (w1, Raise e)
  | OutOfFuel => (w1, OutOfFuel)
  end.
Proof.
  intros Hg Ha. unfold one_run. rewrite Hg, Ha. reflexivity.
Qed.

Lemma one_run_checks (fuel : nat) (args : arguments) (agent : string)
  (hidden_size : nat) (alpha : Q) (seed : option Z) (w : world) :
  (Qle_bool 0 (arg_gamma args) && Qle_bool (arg_gamma args) 1) && Qltb 0 alpha = false ->
  one_run fuel args agent hidden_size alpha seed w = (w, Raise AssertionError).
Proof.
  intros H. unfold one_run.
  destruct (Qle_bool 0 (arg_gamma args) && Qle_bool (arg_gamma args) 1); [| reflexivity].
  cbn [andb] in H. rewrite H. reflexivity.
Qed.

Lemma backprops_counted (u : nat) (l : list (nat * nat)) :
  length (filter is_backprop (flat_map (episode_events u) l)) = length l.
Proof.
  induction l as [| x l IH]; [reflexivity |].
  cbn [flat_map]. rewrite filter_app, length_app, IH.
  unfold episode_events. destruct (fst x mod u =? 0)%nat; reflexivity.
Qed.

(** The log of a run that returns: [gym.make] once, then for each episode
    in turn one update of the model and, when the episode number is a
    multiple of [args.update_every], one printed line with the steps of that
    episode.  So the model is updated exactly once per episode; one step
    count is recorded per episode; and numpy's generator is not touched. *)
Theorem one_run_log (fuel : nat) (args : arguments) (agent : string)
  (hidden_size : nat) (alpha : Q) (seed : option Z) (w w' : world) (scores : list nat) :
  one_run fuel args agent hidden_size alpha seed w = (w', Ok scores) ->
  let events := flat_map (episode_events (arg_update_every args))
                         (combine (seq 0 (arg_episodes args)) scores) in
  log w' = log w ++ Make (arg_env args) :: events /\
  length (filter is_backprop events) = arg_episodes args /\
  length scores = arg_episodes args /\
  np_rng w' = np_rng w.
Proof.
  intros H events.
  destruct ((Qle_bool 0 (arg_gamma args) && Qle_bool (arg_gamma args) 1) && Qltb 0 alpha)
    eqn:Hvalid; [| rewrite one_run_checks in H by exact Hvalid; discriminate].
  apply andb_prop in Hvalid. destruct Hvalid as [Hg Ha].
  rewrite (one_run_valid _ _ _ _ _ _ _ Hg Ha) in H. cbv zeta in H.
  destruct (gym_make (arg_env args)) as [env0 | e0 |]; try discriminate.
  match type of H with
  | context [Policy ?a ?i ?o ?h ?al ?w1] =>
      destruct (Policy_ok a i o h al w1) as (g & p & EP); rewrite EP in H
  end.
  match type of H with
  | context [for_each ?b ?xs ?s ?w2] => destruct (for_each b xs s w2) as [w3 r] eqn:E
  end.
  apply for_each_cases in E.
  destruct r as [[[env1 model1] scores1] | e1 |]; try discriminate.
  injection H as <- <-. cbn [snd].
  destruct E as (new & -> & Hlen & _ & Hlog & Hnp).
  cbn [app log np_rng] in *. rewrite length_seq in Hlen.
  unfold events. rewrite backprops_counted, length_combine, length_seq, Hlen.
  rewrite Hlog, Hnp, <- app_assoc.
  repeat split; auto. apply Nat.min_id.
Qed.

(** With [--update_every 0] and at least one episode a run never returns:
    the test [episode % args.update_every == 0] divides by zero after the
    first episode.  When the environment does not itself raise
    ZeroDivisionError, that exception comes from this test, after the
    environment was made and the model was updated once. *)
Theorem zero_update_every_never_returns (fuel : nat) (args : arguments) (agent : string)
  (hidden_size : nat) (alpha : Q) (seed : option Z) (w : world) :
  arg_update_every args = 0%nat -> (0 < arg_episodes args)%nat ->
  let out := one_run fuel args agent hidden_size alpha seed w in
  (forall scores, snd out <> Ok scores) /\
  (~ gym_raises ZeroDivisionError -> snd out = Raise ZeroDivisionError ->
   log (fst out) = log w ++ [Make (arg_env args); Backprop]).
Proof.
  intros Hu Hep out. unfold out. clear out.
  destruct ((Qle_bool 0 (arg_gamma args) && Qle_bool (arg_gamma args) 1) && Qltb 0 alpha)
    eqn:Hvalid;
    [| rewrite one_run_checks by exact Hvalid; split; [discriminate |];
       intros _ C; discriminate C].
  apply andb_prop in Hvalid. destruct Hvalid as [Hg Ha].
  rewrite (one_run_valid _ _ _ _ _ _ _ Hg Ha). cbv zeta.
  destruct (gym_make (arg_env args)) as [env0 | e0 |] eqn:Emake.
  - match goal with
    | |- context [Policy ?a ?i ?o ?h ?al ?w1] =>
        destruct (Policy_ok a i o h al w1) as (g & p & EP); rewrite EP
    end.
    destruct (arg_episodes args) as [| k]; [lia |].
    cbn [seq for_each]. unfold bind.
    match goal with
    | |- context [run_episode ?f ?a (?en, ?m, ?s) ?x ?w2] =>
        destruct (run_episode f a (en, m, s) x w2) as [w3 r] eqn:E
    end.
    apply run_episode_cases in E.
    destruct r as [[[env1 model1] scores1] | e1 |].
    + destruct E as (n & _ & _ & C & _). contradiction.
    + cbn [fst snd]. split; [discriminate |].
      intros Hgym [= ->].
      destruct E as [(_ & _ & Hlog) | [C _]]; [| contradiction].
      rewrite Hlog. cbn [log]. now rewrite <- app_assoc.
    + cbn [fst snd]. split; [discriminate |]. intros _ C. discriminate C.
  - cbn [fst snd]. split; [discriminate |].
    intros Hgym [= ->]. exfalso. apply Hgym. left. eauto.
  - cbn [fst snd]. split; [discriminate |]. intros _ C. discriminate C.
Qed.

End Harness.

(** *** Concrete collaborators *)

Definition zero_linear (n_in n_out : nat) : linear :=
  mkLinear (repeat (repeat 0 n_in) n_out) (repeat 0 n_out).

(** A difference quotient in place of the gradient of a layer: the change
    of the loss when the biases of the layer grow by one, and no gradient
    when the loss does not change. *)
Definition bump (x : linear) : linear :=
  mkLinear (weight x) (map (fun b => b + 1) (bias x)).

Definition difference (loss : parameters -> R) (p : parameters) (l : layer) : option R :=
  if Req_dec_T (loss (set_layer p l (bump (get_layer p l)))) (loss p)
  then None
  else Some (loss (set_layer p l (bump (get_layer p l))) - loss p).

Definition descend (rate : R) (o : unit) (l : layer) (g : R) (x : linear) : unit * linear :=
  (o, mkLinear (map (map (fun v => v - rate * g)) (weight x))
               (map (fun v => v - rate * g) (bias x))).

(** A torch whose generator counts its draws and samples action 1 at the
    draws numbered 0 and 2 modulo 5, action 0 at the others. *)
Definition counting_torch : Torch := {|
  trng := nat;
  torch_seed := Z.to_nat;
  sample := fun g _ => ((if (g mod 5 =? 0) || (g mod 5 =? 2) then 1 else 0)%nat, S g);
  linear_init := fun g n_in n_out => (zero_linear n_in n_out, g);
  gradT := R;
  grad_zeros := fun _ => 0;
  grad_add := Rplus;
  autograd := difference;
  optT := unit;
  adam_init := tt;
  adam_update := descend
|}.

Definition counting_numpy : Numpy := {|
  nrng := nat;
  np_seed := fun _ => 0%nat;
  np_randint := fun g => (Z.of_nat g, S g)
|}.

(** An environment whose episode ends when action 1 is taken; its state is
    the number of steps of the episode. *)
Definition until_one : Gym := {|
  envT := nat;
  gym_make := fun _ => Ok 0%nat;
  env_seed := fun e _ => e;
  observation_dim := fun _ => 4%nat;
  action_n := fun _ => 2%nat;
  env_reset := fun _ => Ok ([0; 0; 0; 0], 0%nat);
  env_step := fun e a => Ok ([0; 0; 0; 0], 1, (a =? 1)%nat, S e)
|}.

(** An environment that raises when action 1 is taken; its episodes end at
    their second step otherwise. *)
Definition failing : Gym := {|
  envT := nat;
  gym_make := fun _ => Ok 0%nat;
  env_seed := fun e _ => e;
  observation_dim := fun _ => 4%nat;
  action_n := fun _ => 2%nat;
  env_reset := fun _ => Ok ([0; 0; 0; 0], 0%nat);
  env_step := fun e a =>
    if (a =? 1)%nat then Raise EnvError
    else Ok ([0; 0; 0; 0], 1, (1 <=? e)%nat, S e)
|}.

(** One hidden size, and the given seed, learning rates, runs, episodes and
    step cap. *)
Definition small_args (seed : Z) (alphas : list Q) (n_runs n_episodes cap : nat) : arguments :=
  mkArgs (Some seed) "CartPole-v0" (9 # 10) alphas [32%nat] n_runs n_episodes cap 10 false.

(** The state in which [main] calls [runs], with these collaborators. *)
Definition start (args : arguments) (entropy : nat) : world :=
  main_world (torch := counting_torch) (numpy := counting_numpy) args entropy.

(** *** C4: the step cap *)

(** C4, the code at a failing input: with [--max_steps 2] and an environment
    whose first episode ends at its third step, [one_run] records 3 steps.
    [args.max_steps] is not read by [one_run]. *)
Lemma step_cap_not_enforced :
  let args := small_args 3 [1 # 100]%Q 1 1 2 in
  arg_max_steps args = 2%nat /\
  snd (one_run (torch := counting_torch) (numpy := counting_numpy) (gym := until_one)
               10 args "rf" 32 (1 # 100)%Q None (start args 0)) = Ok [3%nat].
Proof. split; reflexivity. Qed.

(** *** C7: the runs of the policy-gradient harness *)

Definition cell (t : list (list (list (list nat)))) (i j k : nat) : list nat :=
  nth k (nth j (nth i t []) []) [].

(** C7, the claim as stated fails for [runs]: there is no seed counter, the
    seed drawn for a run is not used by [one_run], and the runs share the
    generator of torch.  With the same seed, asking for 2 runs instead of 1
    changes the first run of the second learning rate. *)
Lemma runs_prefix_counterexample :
  let alphas := [1 # 100; 1 # 1000]%Q in
  let args1 := small_args 0 alphas 1 1 200 in
  let args2 := small_args 0 alphas 2 1 200 in
  let t1 := snd (runs (torch := counting_torch) (numpy := counting_numpy) (gym := until_one)
                      10 args1 "rf" [32%nat] alphas (start args1 0)) in
  let t2 := snd (runs (torch := counting_torch) (numpy := counting_numpy) (gym := until_one)
                      10 args2 "rf" [32%nat] alphas (start args2 0)) in
  t1 = Ok [[[[1]]; [[2]]]]%nat /\
  t2 = Ok [[[[1]; [2]]; [[3]; [2]]]]%nat /\
  cell [[[[1]]; [[2]]]]%nat 0 1 0 <> cell [[[[1]; [2]]; [[3]; [2]]]]%nat 0 1 0.
Proof.
  cbv zeta. split; [reflexivity | split; [reflexivity | discriminate]].
Qed.

Lemma runs_shape_witness :
  let t := [[[[1]]; [[2]]]]%nat in
  length t = length [32%nat] /\
  Forall (fun by_alpha =>
    length by_alpha = length [1 # 100; 1 # 1000]%Q /\
    Forall (fun by_run =>
      length by_run = arg_runs (small_args 0 [1 # 100; 1 # 1000]%Q 1 1 200) /\
      Forall (fun scores =>
        length scores = arg_episodes (small_args 0 [1 # 100; 1 # 1000]%Q 1 1 200) /\
        Forall (fun n => (1 <= n)%nat) scores) by_run) by_alpha) t.
Proof.
  apply (runs_shape (torch := counting_torch) (numpy := counting_numpy) (gym := until_one)
           10 (small_args 0 [1 # 100; 1 # 1000]%Q 1 1 200) "rf" [32%nat]
           [1 # 100; 1 # 1000]%Q
           (start (small_args 0 [1 # 100; 1 # 1000]%Q 1 1 200) 0)
           (fst (runs (torch := counting_torch) (numpy := counting_numpy) (gym := until_one)
                      10 (small_args 0 [1 # 100; 1 # 1000]%Q 1 1 200) "rf" [32%nat]
                      [1 # 100; 1 # 1000]%Q
                      (start (small_args 0 [1 # 100; 1 # 1000]%Q 1 1 200) 0)))).
  reflexivity.
Defined.

(** *** C8: an invalid learning rate later in the grid *)

(** C8, the claim as stated fails: with the learning rates [0.01, -1] the
    run of 0.01 is executed in full -- its environment is made and its model
    is updated -- before the assertion on -1 stops [runs]. *)
Lemma config_validation_counterexample :
  let alphas := [1 # 100; -1 # 1]%Q in
  let args := small_args 0 alphas 1 1 200 in
  let out := runs (torch := counting_torch) (numpy := counting_numpy) (gym := until_one)
                  10 args "rf" [32%nat] alphas (start args 0) in
  snd out = Raise AssertionError /\
  log (fst out) = [Announce "rf" 32 (1 # 100); Make "CartPole-v0"; Backprop; Report 0 1;
                   Announce "rf" 32 (-1 # 1)].
Proof. split; reflexivity. Qed.

Lemma config_checked_per_run_witness :
  let args := mkArgs (Some 0%Z) "CartPole-v0" (3 # 2) [1 # 100]%Q [32%nat] 1 1 200 10 false in
  let w := start args 0 in
  one_run (gym := until_one) 10 args "rf" 32 (1 # 100)%Q None w = (w, Raise AssertionError) /\
  exists w',
    runs (gym := until_one) 10 args "rf" [32%nat] [1 # 100]%Q w = (w', Raise AssertionError) /\
    log w' = log w ++ [Announce "rf" 32 (1 # 100)].
Proof.
  apply (config_checked_per_run (torch := counting_torch) (numpy := counting_numpy)
           (gym := until_one) 10
           (mkArgs (Some 0%Z) "CartPole-v0" (3 # 2) [1 # 100]%Q [32%nat] 1 1 200 10 false)
           "rf" 32 [] (1 # 100)%Q [] None).
  - left. cbn [arg_gamma]. intros [_ H]. revert H. unfold Qle. simpl. lia.
  - simpl. lia.
Defined.

(** *** C9: a failing environment, concretely *)

(** C9, the claim as stated fails: of three runs the first returns, the
    environment raises in the second, and [runs] raises with it; the result
    of the first run is not returned and the third run is never announced. *)
Lemma env_failure_counterexample :
  let args := small_args 3 [1 # 100]%Q 3 1 200 in
  let out := runs (torch := counting_torch) (numpy := counting_numpy) (gym := failing)
                  10 args "rf" [32%nat] [1 # 100]%Q (start args 0) in
  arg_runs args = 3%nat /\
  snd out = Raise EnvError /\
  log (fst out) = [Announce "rf" 32 (1 # 100); Make "CartPole-v0"; Backprop; Report 0 2;
                   Announce "rf" 32 (1 # 100); Make "CartPole-v0"].
Proof. split; [| split]; reflexivity. Qed.

Definition first_run_log : list event :=
  [Announce "rf" 32 (1 # 100); Make "CartPole-v0"; Backprop; Report 0 2].

Definition second_run_log : list event :=
  first_run_log ++ [Announce "rf" 32 (1 # 100); Make "CartPole-v0"].

Definition world_of (g n : nat) (l : list event) : world :=
  mkWorld (torch := counting_torch) (numpy := counting_numpy) g n l.

Lemma env_failure_aborts_runs_witness :
  let args := small_args 3 [1 # 100]%Q 3 1 200 in
  log (world_of 6 2 second_run_log) = log (world_of 5 2 second_run_log) /\
  runs (torch := counting_torch) (numpy := counting_numpy) (gym := failing)
       10 args "rf" ([] ++ 32%nat :: []) ([] ++ (1 # 100)%Q :: []) (start args 0) =
    (world_of 6 2 second_run_log, Raise EnvError).
Proof.
  apply (env_failure_aborts_runs (torch := counting_torch) (numpy := counting_numpy)
           (gym := failing) 10 (small_args 3 [1 # 100]%Q 3 1 200) "rf"
           [] 32%nat [] [] (1 # 100)%Q [] 1 1
           (world_of 3 0 []) (world_of 3 0 []) (world_of 3 0 [])
           (world_of 5 1 first_run_log) (world_of 5 2 first_run_log)
           (world_of 5 2 second_run_log) (world_of 5 2 second_run_log)
           (world_of 6 2 second_run_log)
           [] [] [[2%nat]] 1%Z 0%nat 0%nat 0%nat
           (mkPolicy (torch := counting_torch) "rf"
              (mkParams (zero_linear 4 32) (zero_linear 32 2) (zero_linear 32 1))
              (fun _ => None) tt (Q2R (1 # 100)) [] [])
           (mkPolicy (torch := counting_torch) "rf"
              (mkParams (zero_linear 4 32) (zero_linear 32 2) (zero_linear 32 1))
              (fun _ => None) tt (Q2R (1 # 100)) [] [])
           [] [] 0%nat [] [0; 0; 0; 0] EnvError); reflexivity.
Defined.

(** *** C10: a model that is trained once *)

(** A difference quotient that tells the outputs of a layer apart: the
    change of the loss when the first bias of the layer grows by one, and no
    gradient when the loss does not change. *)
Definition tilt (x : linear) : linear :=
  mkLinear (weight x)
           (match bias x with
            | b :: bs => (b + 1) :: bs
            | [] => []
            end).

Definition tilted (loss : parameters -> R) (p : parameters) (l : layer) : option R :=
  if Req_dec_T (loss (set_layer p l (tilt (get_layer p l)))) (loss p)
  then None
  else Some (loss (set_layer p l (tilt (get_layer p l))) - loss p).

(** The torch of the examples above, with this difference quotient for its
    gradients. *)
Definition tilting_torch : Torch := {|
  trng := nat;
  torch_seed := Z.to_nat;
  sample := fun g _ => ((if (g mod 5 =? 0) || (g mod 5 =? 2) then 1 else 0)%nat, S g);
  linear_init := fun g n_in n_out => (zero_linear n_in n_out, g);
  gradT := R;
  grad_zeros := fun _ => 0;
  grad_add := Rplus;
  autograd := tilted;
  optT := unit;
  adam_init := tt;
  adam_update := descend
|}.

Lemma tilted_respects_graph : autograd_respects_graph (torch := tilting_torch).
Proof.
  intros loss p l H. cbn [autograd tilting_torch]. unfold tilted.
  destruct (Req_dec_T _ _) as [_ | Hne]; [reflexivity |].
  exfalso. apply Hne. apply H.
Qed.

(** The model as built, the model after an episode of two steps (action 0,
    then action 1, each rewarded 1), and the model after the update that
    ends the episode. *)
Definition built_model : policy (torch := tilting_torch) :=
  mkPolicy (torch := tilting_torch) "rf"
           (mkParams (zero_linear 4 3) (zero_linear 3 2) (zero_linear 3 1))
           (fun _ => None) tt (1 / 100) [] [].

Definition played_model : policy (torch := tilting_torch) :=
  mkPolicy (torch := tilting_torch) "rf" (params built_model) (grads built_model)
           (opt_state built_model) (lr built_model)
           [([0; 0; 0; 0], 0%nat); ([0; 0; 0; 0], 1%nat)] [1; 1].

Definition trained_model : policy (torch := tilting_torch) :=
  match backprop default_args played_model with
  | Ok m => m
  | _ => played_model
  end.

Lemma vsum_vmul_zeros (n : nat) : forall x, vsum (vmul (repeat 0 n) x) = 0.
Proof.
  induction n as [| n IH]; intros x; [reflexivity |].
  destruct x as [| y x]; [reflexivity |].
  cbn [repeat vmul]. change (vsum (0 * y :: vmul (repeat 0 n) x))
    with (0 * y + vsum (vmul (repeat 0 n) x)).
  rewrite IH. ring.
Qed.

(** The logarithm of the probability of an action when the weights of the
    action head are zero: the bias of the action minus the logarithm of the
    normalising sum. *)
Lemma log_prob_biases (h v : linear) (n : nat) (b0 b1 : R) (s : list R) (a : nat) :
  (a < 2)%nat ->
  log_prob (mkParams h (mkLinear (repeat (repeat 0 n) 2) [b0; b1]) v) (s, a) =
  nth a [b0; b1] 0 - ln (exp b0 + exp b1).
Proof.
  intros Ha. unfold log_prob, forward. cbn [fst snd action_head hidden].
  unfold apply_linear at 1. cbn [weight bias repeat map vadd].
  rewrite !vsum_vmul_zeros, !Rplus_0_l.
  unfold softmax, vsum. cbn [map fold_right]. rewrite Rplus_0_r.
  pose proof (exp_pos b0). pose proof (exp_pos b1).
  destruct a as [| [| a]]; [| | lia]; cbn [nth];
    (unfold Rdiv; rewrite ln_mult, ln_Rinv, ln_exp;
     [ring | lra | assumption | apply Rinv_0_lt_compat; lra]).
Qed.

(** The normalised returns of the episode: two numbers of sum 0, the first
    positive. *)
Lemma played_returns :
  exists R0 R1,
    normalize (discount_rewards default_args [1; 1]) = [R0; R1] /\
    R0 + R1 = 0 /\ 0 < R0.
Proof.
  rewrite !discount_rewards_cons.
  change (discount_rewards default_args []) with (@nil R).
  cbn [hd default_args arg_gamma].
  set (ga := Q2R (9 # 10)).
  assert (Hga : ga = 9 / 10) by (unfold ga, Q2R; simpl; lra).
  set (G := [1 + ga * (1 + ga * 0); 1 + ga * 0]).
  assert (HG : mean G = 1 + ga / 2).
  { unfold mean, G, vsum. cbn [fold_right length INR]. lra. }
  pose proof (std_nonneg G) as Hstd. pose proof eps_bounds as Heps.
  exists ((1 + ga * (1 + ga * 0) - mean G) / (std G + eps)),
         ((1 + ga * 0 - mean G) / (std G + eps)).
  split; [reflexivity |]. rewrite HG.
  split; [field; lra | apply Rdiv_lt_0_compat; lra].
Qed.

(** The update has moved the action head. *)
Lemma trained_model_trained :
  action_head (params trained_model) <> action_head (params built_model).
Proof.
  destruct played_returns as (R0 & R1 & HR & Hsum & Hpos).
  set (s := [0; 0; 0; 0]).
  set (loss := fun p : parameters =>
                 - log_prob p (s, 0%nat) * R0 + (- log_prob p (s, 1%nat) * R1 + 0)).
  assert (E : trained_model = update played_model loss).
  { unfold trained_model, backprop, backprop_rf.
    change (rewards played_model) with [1; 1]. rewrite HR. reflexivity. }
  assert (Hloss : forall b0 b1,
            loss (mkParams (zero_linear 4 3) (mkLinear (repeat (repeat 0 3) 2) [b0; b1])
                           (zero_linear 3 1)) = - (b0 * R0 + b1 * R1)).
  { intros b0 b1. unfold loss. rewrite !log_prob_biases by lia. cbn [nth].
    replace R1 with (- R0) by lra. ring. }
  assert (Hgrad : grads trained_model ActionHead = Some (- R0)).
  { rewrite E. unfold update. cbn [grads]. unfold backward, zero_grad.
    cbn [grads played_model built_model option_map autograd tilting_torch].
    unfold tilted.
    change (set_layer (params played_model) ActionHead
              (tilt (get_layer (params played_model) ActionHead)))
      with (mkParams (zero_linear 4 3) (mkLinear (repeat (repeat 0 3) 2) [0 + 1; 0])
                     (zero_linear 3 1)).
    change (params played_model)
      with (mkParams (zero_linear 4 3) (mkLinear (repeat (repeat 0 3) 2) [0; 0])
                     (zero_linear 3 1)).
    rewrite !Hloss.
    destruct (Req_dec_T _ _) as [C | _]; [exfalso; lra | f_equal; ring]. }
  intros C. apply (f_equal bias) in C. revert C.
  rewrite E in Hgrad |- *. unfold update in *. cbn [params grads] in *.
  set (gs := backward loss (params played_model) (zero_grad (grads played_model))) in *.
  unfold optimizer_step. cbn [fold_left]. unfold step_layer.
  cbn [adam_update tilting_torch]. rewrite Hgrad.
  destruct (gs Hidden), (gs ValueHead);
    cbn [fst snd descend set_layer get_layer action_head bias params played_model
         built_model zero_linear repeat map];
    intros [= C]; lra.
Qed.

Lemma reinforce_keeps_value_head_witness :
  (value_head (params trained_model) = value_head (params built_model) /\
   grads trained_model ValueHead = None) /\
  action_head (params trained_model) <> action_head (params built_model).
Proof.
  split; [| exact trained_model_trained].
  apply (reinforce_keeps_value_head (torch := tilting_torch) (numpy := counting_numpy)
           default_args "rf" 4 2 3 (1 / 100)
           (mkWorld (torch := tilting_torch) (numpy := counting_numpy) 4%nat 0%nat [])
           (mkWorld (torch := tilting_torch) (numpy := counting_numpy) 4%nat 0%nat [])
           built_model trained_model).
  - exact tilted_respects_graph.
  - discriminate.
  - reflexivity.
  - apply (reach_backprop _ _ played_model); [| reflexivity].
    apply (reach_reward _ _
             (mkPolicy (torch := tilting_torch) "rf" (params built_model) (grads built_model)
                tt (1 / 100) [([0; 0; 0; 0], 0%nat); ([0; 0; 0; 0], 1%nat)] [1]) 1).
    apply (reach_action _ _
             (mkPolicy (torch := tilting_torch) "rf" (params built_model) (grads built_model)
                tt (1 / 100) [([0; 0; 0; 0], 0%nat)] [1])
             [0; 0; 0; 0]
             (mkWorld (torch := tilting_torch) (numpy := counting_numpy) 5%nat 0%nat [])
             (mkWorld (torch := tilting_torch) (numpy := counting_numpy) 6%nat 0%nat [])
             1%nat); [| reflexivity].
    apply (reach_reward _ _
             (mkPolicy (torch := tilting_torch) "rf" (params built_model) (grads built_model)
                tt (1 / 100) [([0; 0; 0; 0], 0%nat)] []) 1).
    apply (reach_action _ _ built_model [0; 0; 0; 0]
             (mkWorld (torch := tilting_torch) (numpy := counting_numpy) 4%nat 0%nat [])
             (mkWorld (torch := tilting_torch) (numpy := counting_numpy) 5%nat 0%nat [])
             0%nat); [apply reach_init | reflexivity].
Defined.

(** *** A rollout and a run, concretely *)

(** The model as built with the counting torch. *)
Definition fresh_model : policy (torch := counting_torch) :=
  mkPolicy (torch := counting_torch) "rf"
           (mkParams (zero_linear 4 3) (zero_linear 3 2) (zero_linear 3 1))
           (fun _ => None) tt (1 / 100) [] [].

(** The model after the three steps of the episode that starts with torch's
    generator at 3. *)
Definition after_three_steps : policy (torch := counting_torch) :=
  mkPolicy (torch := counting_torch) "rf" (params fresh_model) (grads fresh_model)
           (opt_state fresh_model) (lr fresh_model)
           [([0; 0; 0; 0], 0%nat); ([0; 0; 0; 0], 0%nat); ([0; 0; 0; 0], 1%nat)]
           [1; 1; 1].

Lemma rollout_fills_buffers_witness :
  (0 < 3)%nat /\
  length (actions after_three_steps) = (length (actions fresh_model) + (3 - 0))%nat /\
  length (rewards after_three_steps) = (length (rewards fresh_model) + (3 - 0))%nat /\
  firstn (length (actions fresh_model)) (actions after_three_steps) = actions fresh_model /\
  firstn (length (rewards fresh_model)) (rewards after_three_steps) = rewards fresh_model /\
  params after_three_steps = params fresh_model /\
  grads after_three_steps = grads fresh_model /\
  opt_state after_three_steps = opt_state fresh_model /\
  lr after_three_steps = lr fresh_model /\
  agent_tag after_three_steps = agent_tag fresh_model /\
  np_rng (world_of 6 0 []) = np_rng (world_of 3 0 []) /\
  log (world_of 6 0 []) = log (world_of 3 0 []).
Proof.
  apply (rollout_fills_buffers (torch := counting_torch) (numpy := counting_numpy)
           (gym := until_one) 10 0%nat fresh_model [0; 0; 0; 0] 0
           (world_of 3 0 []) (world_of 6 0 []) 3%nat after_three_steps 3).
  reflexivity.
Defined.

Lemma update_after_rollout_witness :
  actions after_three_steps <> [] /\ rewards after_three_steps <> [] /\
  exists model'',
    backprop default_args after_three_steps = Ok model'' /\
    actions model'' = [] /\ rewards model'' = [].
Proof.
  apply (update_after_rollout (torch := counting_torch) (numpy := counting_numpy)
           (gym := until_one) 10 default_args 0%nat fresh_model [0; 0; 0; 0] 0
           (world_of 3 0 []) (world_of 6 0 []) 3%nat after_three_steps 3).
  reflexivity.
Defined.

Lemma one_run_log_witness :
  let args := small_args 3 [1 # 100]%Q 1 1 2 in
  let w' := world_of 6 0 [Make "CartPole-v0"; Backprop; Report 0 3] in
  let events := flat_map (episode_events (arg_update_every args))
                         (combine (seq 0 (arg_episodes args)) [3%nat]) in
  log w' = log (start args 0) ++ Make (arg_env args) :: events /\
  length (filter is_backprop events) = arg_episodes args /\
  length [3%nat] = arg_episodes args /\
  np_rng w' = np_rng (start args 0).
Proof.
  apply (one_run_log (torch := counting_torch) (numpy := counting_numpy) (gym := until_one)
           10 (small_args 3 [1 # 100]%Q 1 1 2) "rf" 32 (1 # 100)%Q None
           (start (small_args 3 [1 # 100]%Q 1 1 2) 0)
           (world_of 6 0 [Make "CartPole-v0"; Backprop; Report 0 3]) [3%nat]).
  reflexivity.
Defined.

(** The command line [--update_every 0]. *)
Definition never_report : arguments :=
  mkArgs (Some 3%Z) "CartPole-v0" (9 # 10) [1 # 100]%Q [32%nat] 1 1 200 0 false.

Lemma zero_update_every_never_returns_witness :
  let out := one_run (torch := counting_torch) (numpy := counting_numpy) (gym := until_one)
                     10 never_report "rf" 32 (1 # 100)%Q None (start never_report 0) in
  (forall scores, snd out <> Ok scores) /\
  (~ gym_raises (gym := until_one) ZeroDivisionError -> snd out = Raise ZeroDivisionError ->
   log (fst out) = log (start never_report 0) ++ [Make (arg_env never_report); Backprop]).
Proof.
  apply (zero_update_every_never_returns (torch := counting_torch) (numpy := counting_numpy)
           (gym := until_one) 10 never_report "rf" 32 (1 # 100)%Q None
           (start never_report 0)).
  - reflexivity.
  - simpl. lia.
Defined.

(** *** Saved results: [save] and [load] *)

Section Storage.

(** What [save] pickles: the list [[steps_rf, steps_ac, args]]. *)
Variable bundle : Type.

(** The readable pickle files, by path. *)
Definition files : Type := string -> option bundle.

Definition SAVED_MODELS_FOLDER : string := "./data/".

(** [os.path.join(folder, name)] for a folder that ends with a slash: an
    absolute [name] replaces the folder. *)
Definition path_join (folder name : string) : string :=
  if String.prefix "/" name then name else (folder ++ name)%string.

(** [save(objects, filename)]; [now] is the time stamp [NOW] taken when the
    module is loaded.  The folder is taken to exist. *)
Definition save (now : string) (fs : files) (objects : bundle) (filename : string) : files :=
  fun path =>
    if String.eqb path
         (path_join SAVED_MODELS_FOLDER (now ++ "_" ++ filename ++ ".pickle")%string)
    then Some objects
    else fs path.

(** How a call of [load] ends: it returns the bundle, the process exits
    after a printed line, or an exception that no handler catches leaves
    it. *)
Inductive loaded :=
| Loaded (b : bundle)
| SystemExit (printed : string)
| Uncaught.

(** [load(filename)].  [open] raises FileNotFoundError when there is no file
    at the path; the handler calls [load] again on the path in the data
    folder, drops what that call returns, prints and exits.  [depth] is the
    depth of recursion the interpreter allows. *)
Fixpoint load (depth : nat) (fs : files) (filename : string) : loaded :=
  match depth with
  | O => Uncaught
  | S depth' =>
      match fs filename with
      | Some b => Loaded b
      | None =>
          let filename := path_join SAVED_MODELS_FOLDER filename in
          match load depth' fs filename with
          | Loaded _ => SystemExit ("Could not open file " ++ filename)%string
          | other => other
          end
      end
  end.

Lemma folder_path_differs (name : string) :
  String.eqb name (SAVED_MODELS_FOLDER ++ name)%string = false.
Proof.
  apply String.eqb_neq. intros E. apply (f_equal String.length) in E.
  unfold SAVED_MODELS_FOLDER in E. cbn in E. lia.
Qed.

(** [load] returns a bundle exactly when a file exists at the very path it
    is given, and then returns that file's bundle; a file found only by the
    handler (in the data folder) is never returned. *)
Theorem load_reads_given_path_only (depth : nat) (fs : files) (filename : string)
  (b : bundle) :
  load depth fs filename = Loaded b <-> (0 < depth)%nat /\ fs filename = Some b.
Proof.
  destruct depth as [| d]; cbn [load].
  - split; [discriminate | lia].
  - destruct (fs filename) as [b0 |].
    + split; [intros [= ->]; split; [lia | reflexivity] | intros [_ [= ->]]; reflexivity].
    + split; [| intros [_ C]; discriminate C].
      destruct (load d fs (path_join SAVED_MODELS_FOLDER filename)); discriminate.
Qed.

(** When the file is not at the given path but is in the data folder, [load]
    reads it there, drops it, prints that it could not open the file, and
    exits. *)
Theorem load_fallback_exits (d : nat) (fs : files) (filename : string) (b : bundle) :
  fs filename = None ->
  fs (path_join SAVED_MODELS_FOLDER filename) = Some b ->
  load (S (S d)) fs filename =
  SystemExit ("Could not open file " ++ path_join SAVED_MODELS_FOLDER filename)%string.
Proof.
  intros Hnone Hdata. cbn [load]. now rewrite Hnone, Hdata.
Qed.

(** What [save] wrote is read back by [load] under its path in the data
    folder; under the bare file name, which is how the help of [--load] asks
    for it, [load] exits unless a file of that name is also in the current
    folder. *)
Theorem save_load_round_trip (now filename : string) (fs : files) (objects : bundle)
  (d : nat) :
  let name := (now ++ "_" ++ filename ++ ".pickle")%string in
  String.prefix "/" name = false -> fs name = None ->
  load (S d) (save now fs objects filename) (SAVED_MODELS_FOLDER ++ name)%string =
    Loaded objects /\
  load (S (S d)) (save now fs objects filename) name =
    SystemExit ("Could not open file " ++ SAVED_MODELS_FOLDER ++ name)%string.
Proof.
  intros name Hpre Hnone.
  assert (Hp : path_join SAVED_MODELS_FOLDER name = (SAVED_MODELS_FOLDER ++ name)%string).
  { unfold path_join. now rewrite Hpre. }
  assert (Hs : forall path,
            save now fs objects filename path =
            if String.eqb path (SAVED_MODELS_FOLDER ++ name)%string
            then Some objects else fs path).
  { intros path. unfold save. fold name. now rewrite Hp. }
  split.
  - cbn [load]. now rewrite Hs, String.eqb_refl.
  - cbn [load]. rewrite Hs, folder_path_differs, Hnone, Hp, Hs, String.eqb_refl.
    reflexivity.
Qed.

End Storage.

Definition one_saved_file (path : string) : option nat :=
  if String.eqb path "./data/steps.pickle" then Some 7%nat else None.

Lemma load_fallback_exits_witness :
  load nat 2 one_saved_file "steps.pickle" =
  SystemExit nat ("Could not open file " ++ path_join SAVED_MODELS_FOLDER "steps.pickle")%string.
Proof.
  apply (load_fallback_exits nat 0 one_saved_file "steps.pickle" 7%nat); reflexivity.
Defined.

Lemma save_load_round_trip_witness :
  let name := ("2019-11-18T10-00-00" ++ "_" ++ "steps" ++ ".pickle")%string in
  load nat 1 (save nat "2019-11-18T10-00-00" (fun _ => None) 7%nat "steps")
       (SAVED_MODELS_FOLDER ++ name)%string = Loaded nat 7%nat /\
  load nat 2 (save nat "2019-11-18T10-00-00" (fun _ => None) 7%nat "steps") name =
    SystemExit nat ("Could not open file " ++ SAVED_MODELS_FOLDER ++ name)%string.
Proof.
  apply (save_load_round_trip nat "2019-11-18T10-00-00" "steps" (fun _ => None) 7%nat 0);
    reflexivity.
Defined.

(** *** [plot9]: the panels of the grid *)

(** The inner loop of [plot9] for the row [hs_idx]: the counter [i] and the
    panels drawn so far.  [axs] has shape (3, 3), so [axs[hs_idx, alpha_idx]]
    raises IndexError ([None]) outside it; the loop is left when [i] reaches
    9. *)
Fixpoint plot9_row (hs_idx : nat) (alpha_idxs : list nat) (st : nat * list (nat * nat))
  : option (nat * list (nat * nat)) :=
  match alpha_idxs with
  | [] => Some st
  | alpha_idx :: rest =>
      if (hs_idx <? 3)%nat && (alpha_idx <? 3)%nat then
        let i := S (fst st) in
        let drawn := snd st ++ [(hs_idx, alpha_idx)] in
        if (i =? 9)%nat then Some (i, drawn) else plot9_row hs_idx rest (i, drawn)
      else None
  end.

Fixpoint plot9_rows (hs_idxs : list nat) (n_alphas : nat) (st : nat * list (nat * nat))
  : option (nat * list (nat * nat)) :=
  match hs_idxs with
  | [] => Some st
  | hs_idx :: rest =>
      match plot9_row hs_idx (seq 0 n_alphas) st with
      | None => None
      | Some st' => plot9_rows rest n_alphas st'
      end
  end.

(** [plot9]: the panels it draws, in order, or IndexError. *)
Definition plot9 (args : arguments) : option (list (nat * nat)) :=
  option_map snd (plot9_rows (seq 0 (length (arg_hidden_size args)))
                             (length (arg_alphas args)) (0%nat, [])).

Lemma plot9_rows_no_alphas (hs_idxs : list nat) (st : nat * list (nat * nat)) :
  plot9_rows hs_idxs 0 st = Some st.
Proof. induction hs_idxs as [| h t IH]; [reflexivity | exact IH]. Qed.

Lemma flat_map_no_alphas (hs_idxs : list nat) :
  flat_map (fun h => map (pair h) (seq 0 0)) hs_idxs = [].
Proof. induction hs_idxs as [| h t IH]; [reflexivity | exact IH]. Qed.

(** [plot9] draws one panel for every pair of a hidden size and a learning
    rate, row by row, when the grid of hyperparameters fits in the 3 x 3
    grid of axes (or is empty); with more than three hidden sizes or more
    than three learning rates it raises IndexError.  The test [i == 9] never
    cuts a drawing short. *)
Theorem plot9_grid (args : arguments) :
  let ns := length (arg_hidden_size args) in
  let na := length (arg_alphas args) in
  plot9 args =
  if ((ns <=? 3)%nat || (na =? 0)%nat) && ((na <=? 3)%nat || (ns =? 0)%nat)
  then Some (flat_map (fun h => map (pair h) (seq 0 na)) (seq 0 ns))
  else None.
Proof.
  unfold plot9. cbv zeta.
  generalize (length (arg_hidden_size args)) as ns.
  generalize (length (arg_alphas args)) as na.
  intros na ns.
  destruct na as [| [| [| [| na]]]].
  - rewrite plot9_rows_no_alphas, flat_map_no_alphas.
    cbn [Nat.eqb Nat.leb orb andb]. now rewrite orb_true_r.
  - destruct ns as [| [| [| [| ns]]]]; reflexivity.
  - destruct ns as [| [| [| [| ns]]]]; reflexivity.
  - destruct ns as [| [| [| [| ns]]]]; reflexivity.
  - destruct ns as [| [| [| [| ns]]]]; reflexivity.
Qed.

End HW03Q02.
